(** * Chapter cache, fetch coordination, preload pool and reader retry loop

    A shallow embedding of the TypeScript service module that generates
    chapters ([generateChapterContent], [preloadChapter], [processQueue],
    [searchNovels], [getRankings], [generateEpubSummary]) and of the
    [loadChapter] effect of the [Reader] component, with the navigation of
    the reader, the preload loops of the reader and of the home page and the
    source list of the detail page, followed by the properties established
    about them.

    Modelling conventions.
    - A JavaScript string is the list of its UTF-16 code units, so that
      [length] is the [.length] of the source.
    - A JavaScript number that the code only uses as an integer
      ([chapterIndex], [retryCount], [activeWorkers]) is a [Z].
    - The module runs on one thread; every function below is one
      uninterrupted synchronous segment of the source.  An [async] function
      is split at its [await]s: the part before the first [await] is a
      state transformer, the continuation is run by a later event.
    - The generative API ([ai.models.generateContent]) is the environment:
      calling it appends a request to the log, and the environment settles
      a pending request later with a response or with an error.  It is an
      asynchronous method and never throws synchronously.
    - Callbacks that the JavaScript runtime schedules (the [finally] of a
      preload task, the continuation after an [await]) are events of their
      own, enabled once the promise they wait for has settled; any order of
      enabled events is an execution of the model.
    - The reader component is its state variables, the calls of
      [loadChapter] that have not finished, each with the values it has
      captured, and the trace of the runs of the load effect ([Component]).
      An effect runs after the render in which one of its dependencies has
      changed, on the values of that render, and the state updates made
      between two renders are applied together.  [Reader.session] is the
      component from its first render on, as long as the user does not
      navigate. *)

From Stdlib Require Import ZArith List String Ascii DecimalString Lia.
From Stdlib Require Import DecimalPos DecimalZ.
From stdpp Require Import gmap list sorting.

Local Open Scope Z_scope.

(** ** JavaScript strings *)

Abbreviation jsstring := (list N).

Module JsString.

(** Decoding of the UTF-8 bytes of a literal of this file into UTF-16 code
    units (a code point above U+FFFF becomes a surrogate pair). *)
Fixpoint utf16_of_utf8 (bs : list N) : list N :=
  match bs with
  | [] => []
  | b0 :: r0 =>
      if (b0 <? 128)%N then b0 :: utf16_of_utf8 r0
      else if (b0 <? 224)%N then
        match r0 with
        | b1 :: r1 =>
            (N.land b0 31 * 64 + N.land b1 63)%N :: utf16_of_utf8 r1
        | [] => []
        end
      else if (b0 <? 240)%N then
        match r0 with
        | b1 :: b2 :: r2 =>
            (N.land b0 15 * 4096 + N.land b1 63 * 64 + N.land b2 63)%N
              :: utf16_of_utf8 r2
        | _ => []
        end
      else
        match r0 with
        | b1 :: b2 :: b3 :: r3 =>
            let cp := (N.land b0 7 * 262144 + N.land b1 63 * 4096
                       + N.land b2 63 * 64 + N.land b3 63)%N in
            let v := (cp - 65536)%N in
            (55296 + v / 1024)%N :: (56320 + v mod 1024)%N
              :: utf16_of_utf8 r3
        | _ => []
        end
  end.

Definition js (s : string) : jsstring :=
  utf16_of_utf8 (map N_of_ascii (list_ascii_of_string s)).
#[global] Arguments js s%_string_scope.

(** [String(n)] for an integer [n]. *)
Definition ofZ (n : Z) : jsstring := js (NilZero.string_of_int (Z.to_int n)).

(** [s.length] *)
Definition len (s : jsstring) : Z := Z.of_nat (length s).

(** [s.split('\n')]: never empty, [''.split('\n')] is [['']]. *)
Fixpoint split_nl (s : jsstring) : list jsstring :=
  match s with
  | [] => [[]]
  | c :: s' =>
      if (c =? 10)%N then [] :: split_nl s'
      else match split_nl s' with
           | l :: ls => (c :: l) :: ls
           | [] => [[c]]
           end
  end.

(** [ls.join('\n')] *)
Fixpoint join_nl (ls : list jsstring) : jsstring :=
  match ls with
  | [] => []
  | [l] => l
  | l :: ls' => l ++ 10%N :: join_nl ls'
  end.

(** The class [\s] of a JavaScript regular expression. *)
Definition isSpace (c : N) : bool :=
  ((9 <=? c) && (c <=? 13) || (c =? 32) || (c =? 160) || (c =? 5760)
   || (8192 <=? c) && (c <=? 8202) || (c =? 8232) || (c =? 8233)
   || (c =? 8239) || (c =? 8287) || (c =? 12288) || (c =? 65279))%N.

Fixpoint dropWhile (f : N -> bool) (s : jsstring) : jsstring :=
  match s with
  | [] => []
  | c :: s' => if f c then dropWhile f s' else s
  end.

(** [s.replace(/^#+\s*/, '')] *)
Definition stripHeading (s : jsstring) : jsstring :=
  match s with
  | 35%N :: _ => dropWhile isSpace (dropWhile (N.eqb 35) s)
  | _ => s
  end.

End JsString.

Import JsString.

(** ** types.ts *)

Module Chapter.
Record t : Type := mk
  { id : jsstring; title : jsstring; content : jsstring; number : Z }.
End Chapter.

Abbreviation Chapter := Chapter.t.

#[global] Instance Chapter_eq_dec : EqDecision Chapter.
Proof. solve_decision. Defined.

(** A value thrown or used as a rejection reason. *)
Inductive JsError : Type := Thrown (message : jsstring).

#[global] Instance JsError_eq_dec : EqDecision JsError.
Proof. solve_decision. Defined.

(** A settled promise of a chapter. *)
Inductive Settled : Type :=
| Fulfilled (c : Chapter)
| Rejected (e : JsError).

#[global] Instance Settled_eq_dec : EqDecision Settled.
Proof. solve_decision. Defined.

(** What the generative API answers to one call: a response whose [text]
    may be undefined, or a rejection. *)
Inductive AdapterResult : Type :=
| Responded (text : option jsstring)
| Failed (e : JsError).

(** ** services/geminiService.ts: state of the module *)

(** Who called [generateChapterContent]: the view layer, or a task of the
    preload queue.  The source does not record this; it is kept with each
    request so that the calls made on behalf of preloading can be counted. *)
Inductive Origin : Type := Foreground | Preload.

#[global] Instance Origin_eq_dec : EqDecision Origin.
Proof. solve_decision. Defined.

(** One call of [ai.models.generateContent] made by [generateChapterContent],
    together with the promise [requestPromise] of the surrounding async
    block; [req_result] is [None] while that promise is pending. *)
Record Request : Type := mkRequest
  { req_key : jsstring;
    req_title : jsstring;
    req_index : Z;
    req_origin : Origin;
    req_result : option Settled }.

(** What a caller of [generateChapterContent] holds once the synchronous part
    of the call has run.  Requests are named by their position in the log. *)
Inductive Handle : Type :=
| Now (c : Chapter)                  (* [return] of a value: already fulfilled *)
| Joined (p : nat)                   (* [return activeRequests.get(key)!] *)
| Owner (p : nat) (chapterIndex : Z) (* [try { return await requestPromise } catch ...] *).

#[global] Instance Handle_eq_dec : EqDecision Handle.
Proof. solve_decision. Defined.

Record State : Type := mkState
  { chapterCache : gmap jsstring Chapter;     (* Map<string, Chapter> *)
    activeRequests : gmap jsstring nat;       (* Map<string, Promise<Chapter>> *)
    preloadQueue : list (jsstring * Z);       (* closures over (novelTitle, chapterIndex) *)
    activeWorkers : Z;
    requests : list Request;                  (* calls of the generative API, oldest first *)
    running : list Handle                     (* what each started task awaits *) }.

Definition CONCURRENCY_LIMIT : Z := 3.

Definition initial : State :=
  {| chapterCache := ∅; activeRequests := ∅; preloadQueue := [];
     activeWorkers := 0; requests := []; running := [] |}.

(** [`${novelTitle}-${chapterIndex}`] *)
Definition chapterKey (novelTitle : jsstring) (chapterIndex : Z) : jsstring :=
  novelTitle ++ js "-" ++ ofZ chapterIndex.

(** [chapterCache.set(key, chapter)] *)
Definition cacheSet (key : jsstring) (chapter : Chapter) (st : State) : State :=
  {| chapterCache := <[key := chapter]> (chapterCache st);
     activeRequests := activeRequests st;
     preloadQueue := preloadQueue st;
     activeWorkers := activeWorkers st;
     requests := requests st;
     running := running st |}.

(** [activeRequests.set(key, requestPromise)] *)
Definition activeSet (key : jsstring) (p : nat) (st : State) : State :=
  {| chapterCache := chapterCache st;
     activeRequests := <[key := p]> (activeRequests st);
     preloadQueue := preloadQueue st;
     activeWorkers := activeWorkers st;
     requests := requests st;
     running := running st |}.

(** [activeRequests.delete(key)] *)
Definition activeDelete (key : jsstring) (st : State) : State :=
  {| chapterCache := chapterCache st;
     activeRequests := delete key (activeRequests st);
     preloadQueue := preloadQueue st;
     activeWorkers := activeWorkers st;
     requests := requests st;
     running := running st |}.

Definition withRequests (rs : list Request) (st : State) : State :=
  {| chapterCache := chapterCache st;
     activeRequests := activeRequests st;
     preloadQueue := preloadQueue st;
     activeWorkers := activeWorkers st;
     requests := rs;
     running := running st |}.

Definition withPool (q : list (jsstring * Z)) (w : Z) (hs : list Handle)
    (st : State) : State :=
  {| chapterCache := chapterCache st;
     activeRequests := activeRequests st;
     preloadQueue := q;
     activeWorkers := w;
     requests := requests st;
     running := hs |}.

(** The chapter returned when the API key is missing. *)
Definition missingKeyChapter : Chapter :=
  Chapter.mk (js "error") (js "Error") (js "API Key missing or error.") 1.

(** The chapter returned by the [catch] around [await requestPromise]. *)
Definition failedChapter (chapterIndex : Z) : Chapter :=
  Chapter.mk (js "error") (js "生成失败")
    (js "无法生成章节内容，请检查网络后重试。") (chapterIndex + 1).

(** The body of the [try] block after the response has arrived. *)
Definition buildChapter (key : jsstring) (chapterIndex : Z)
    (responseText : option jsstring) : Chapter :=
  let text := match responseText with Some (c :: t) => c :: t | _ => [] end in
  let lines := split_nl text in
  let title :=
    match lines with
    | (c :: l) :: _ => c :: l
    | _ => js "第 " ++ ofZ (chapterIndex + 1) ++ js " 章"
    end in
  let content := join_nl (tl lines) in
  Chapter.mk key (stripHeading title) content (chapterIndex + 1).

(** State of the promise of request [p]. *)
Definition promiseState (st : State) (p : nat) : option Settled :=
  match requests st !! p with
  | Some rq => req_result rq
  | None => None
  end.

(** What the promise returned to a caller has settled to, if it has. *)
Definition observe (st : State) (h : Handle) : option Settled :=
  match h with
  | Now c => Some (Fulfilled c)
  | Joined p => promiseState st p
  | Owner p chapterIndex =>
      match promiseState st p with
      | Some (Fulfilled c) => Some (Fulfilled c)
      | Some (Rejected _) => Some (Fulfilled (failedChapter chapterIndex))
      | None => None
      end
  end.

Section Service.

(** [process.env.API_KEY || ''] *)
Variable apiKey : jsstring.

(** [!apiKey] *)
Definition apiKeyMissing : bool :=
  match apiKey with [] => true | _ => false end.

(** The synchronous part of [generateChapterContent]: everything up to its
    first [await], that is, the two look-ups, and for a new request the
    call of the API and the registration of [requestPromise]. *)
Definition generateChapterContent (o : Origin) (novelTitle : jsstring)
    (chapterIndex : Z) (st : State) : State * Handle :=
  if apiKeyMissing then (st, Now missingKeyChapter)
  else
    let key := chapterKey novelTitle chapterIndex in
    match chapterCache st !! key with
    | Some c => (st, Now c)
    | None =>
        match activeRequests st !! key with
        | Some p => (st, Joined p)
        | None =>
            let p := length (requests st) in
            let rq := mkRequest key novelTitle chapterIndex o None in
            (activeSet key p (withRequests (requests st ++ [rq]) st),
             Owner p chapterIndex)
        end
    end.

(** The statements of the async block that run once the API call has
    settled, in program order, and what [requestPromise] settles to. *)
Definition requestContinuation (rq : Request) (r : AdapterResult)
    : list (State -> State) * Settled :=
  match r with
  | Responded text =>
      let chapter := buildChapter (req_key rq) (req_index rq) text in
      ([cacheSet (req_key rq) chapter; activeDelete (req_key rq)],
       Fulfilled chapter)
  | Failed e => ([activeDelete (req_key rq)], Rejected e)
  end.

Definition runStatements (ops : list (State -> State)) (st : State) : State :=
  fold_left (fun s op => op s) ops st.

(** The states after each statement of [ops], in order. *)
Fixpoint instants (ops : list (State -> State)) (st : State) : list State :=
  match ops with
  | [] => []
  | op :: ops' => op st :: instants ops' (op st)
  end.

Definition resolveRequest (p : nat) (rq : Request) (v : Settled)
    (st : State) : State :=
  withRequests
    (<[p := mkRequest (req_key rq) (req_title rq) (req_index rq)
              (req_origin rq) (Some v)]> (requests st)) st.

(** The API call of request [p] settles with [r]. *)
Definition settle (p : nat) (r : AdapterResult) (st : State) : option State :=
  match requests st !! p with
  | Some rq =>
      match req_result rq with
      | Some _ => None
      | None =>
          let '(ops, v) := requestContinuation rq r in
          Some (resolveRequest p rq v (runStatements ops st))
      end
  | None => None
  end.

(** [processQueue]: starts the oldest queued task when a worker is free.
    Starting a task runs it up to its [await], which is the synchronous
    part of [generateChapterContent]. *)
Definition processQueue (st : State) : State :=
  match preloadQueue st with
  | [] => st
  | task :: rest =>
      if CONCURRENCY_LIMIT <=? activeWorkers st then st
      else
        let st1 := withPool rest (activeWorkers st + 1) (running st) st in
        let '(st2, h) := generateChapterContent Preload task.1 task.2 st1 in
        withPool (preloadQueue st2) (activeWorkers st2) (running st2 ++ [h]) st2
  end.

(** [preloadChapter] *)
Definition preloadChapter (novelTitle : jsstring) (chapterIndex : Z)
    (st : State) : State :=
  let key := chapterKey novelTitle chapterIndex in
  if bool_decide (is_Some (chapterCache st !! key))
     || bool_decide (is_Some (activeRequests st !! key))
  then st
  else
    processQueue
      (withPool (preloadQueue st ++ [(novelTitle, chapterIndex)])
         (activeWorkers st) (running st) st).

(** The [finally] callback of the [i]-th started task: it runs when the
    task has settled, which is when the promise it awaits has (a task
    catches rejections, so it always fulfils). *)
Definition taskSettled (i : nat) (st : State) : option State :=
  match running st !! i with
  | Some h =>
      match observe st h with
      | Some _ =>
          Some (processQueue
                  (withPool (preloadQueue st) (activeWorkers st - 1)
                     (delete i (running st)) st))
      | None => None
      end
  | None => None
  end.

(** [n] callers call [generateChapterContent] for the same chapter one
    after the other, nothing settling in between; the result lists what
    each caller holds, first caller first. *)
Fixpoint concurrentCalls (n : nat) (novelTitle : jsstring) (chapterIndex : Z)
    (st : State) : State * list Handle :=
  match n with
  | O => (st, [])
  | S n' =>
      let '(st1, h) := generateChapterContent Foreground novelTitle chapterIndex st in
      let '(st2, hs) := concurrentCalls n' novelTitle chapterIndex st1 in
      (st2, h :: hs)
  end.

(** ** Executions *)

Inductive Event : Type :=
| CallGenerate (novelTitle : jsstring) (chapterIndex : Z)
| CallPreload (novelTitle : jsstring) (chapterIndex : Z)
| AdapterSettles (p : nat) (r : AdapterResult)
| TaskSettles (i : nat).

Definition step (ev : Event) (st : State) : option State :=
  match ev with
  | CallGenerate t i => Some (generateChapterContent Foreground t i st).1
  | CallPreload t i => Some (preloadChapter t i st)
  | AdapterSettles p r => settle p r st
  | TaskSettles i => taskSettled i st
  end.

Fixpoint run (evs : list Event) (st : State) : option State :=
  match evs with
  | [] => Some st
  | ev :: evs' =>
      match step ev st with
      | Some st' => run evs' st'
      | None => None
      end
  end.

Definition reachable (st : State) : Prop :=
  exists evs, run evs initial = Some st.

End Service.

(** ** services/geminiService.ts: searchNovels and getRankings *)

Module Listing.

Inductive Category : Type := Urban | Historical.

(** The request sent to the generative API; the text of the prompt is
    determined by these parameters and is not interpreted here. *)
Inductive Prompt : Type :=
| SearchPrompt (query : jsstring)
| RankingsPrompt (category : Category).

(** An async function up to its first [await]. *)
Inductive Started (A : Type) : Type :=
| Returned (v : A)
| Awaiting (request : Prompt).
Arguments Returned {A} v.
Arguments Awaiting {A} request.

Definition PLACEHOLDER_IMGS : list jsstring :=
  [ js "https://picsum.photos/300/400?random=1";
    js "https://picsum.photos/300/400?random=2";
    js "https://picsum.photos/300/400?random=3";
    js "https://picsum.photos/300/400?random=4";
    js "https://picsum.photos/300/400?random=5" ].

Section Listing.

Variable apiKey : jsstring.

(** An element of the parsed array, and [JSON.parse] followed by the test
    that [data.map] exists: [None] when either throws. *)
Variable Item : Type.
Variable parseArray : jsstring -> option (list Item).

(** [{...item, coverUrl: PLACEHOLDER_IMGS[index % PLACEHOLDER_IMGS.length]}] *)
Definition withCover (index : nat) (item : Item) : Item * jsstring :=
  (item, nth (index mod length PLACEHOLDER_IMGS) PLACEHOLDER_IMGS []).

(** The part of either function after the response has arrived,
    including its [catch]. *)
Definition listingSettled (r : AdapterResult) : list (Item * jsstring) :=
  match r with
  | Responded text =>
      let source := match text with Some (c :: t) => c :: t | _ => js "[]" end in
      match parseArray source with
      | Some data => imap withCover data
      | None => []
      end
  | Failed _ => []
  end.

Definition searchNovels (query : jsstring) : Started (list (Item * jsstring)) :=
  if apiKeyMissing apiKey then Returned [] else Awaiting (SearchPrompt query).

Definition getRankings (category : Category) : Started (list (Item * jsstring)) :=
  if apiKeyMissing apiKey then Returned [] else Awaiting (RankingsPrompt category).

End Listing.

End Listing.

(** ** components/Reader.tsx: the chapter-loading effect *)

Module Reader.

(** The state variables of the component that the effect reads or writes. *)
Record ReaderState : Type := mkReader
  { chapterIndex : Z;
    chapter : option Chapter;
    loading : bool;
    currentSourceName : jsstring;
    retryCount : Z;
    isAutoSwitching : bool }.

(** What one run of the effect does to the outside, in order. *)
Inductive Action : Type :=
| ScrollToTop
| Delay (ms : Z)
| Fetch (novelTitle : jsstring) (chapterIndex : Z)
| PreloadNext (novelTitle : jsstring) (chapterIndex : Z).

#[global] Instance Action_eq_dec : EqDecision Action.
Proof. solve_decision. Defined.

Definition isFetch (a : Action) : bool :=
  match a with Fetch _ _ => true | _ => false end.

Definition setLoading (b : bool) (st : ReaderState) : ReaderState :=
  mkReader (chapterIndex st) (chapter st) b (currentSourceName st)
    (retryCount st) (isAutoSwitching st).

Definition setChapter (c : option Chapter) (st : ReaderState) : ReaderState :=
  mkReader (chapterIndex st) c (loading st) (currentSourceName st)
    (retryCount st) (isAutoSwitching st).

Definition setIsAutoSwitching (b : bool) (st : ReaderState) : ReaderState :=
  mkReader (chapterIndex st) (chapter st) (loading st) (currentSourceName st)
    (retryCount st) b.

Definition setRetryCount (f : Z -> Z) (st : ReaderState) : ReaderState :=
  mkReader (chapterIndex st) (chapter st) (loading st) (currentSourceName st)
    (f (retryCount st)) (isAutoSwitching st).

Definition setCurrentSourceName (s : jsstring) (st : ReaderState) : ReaderState :=
  mkReader (chapterIndex st) (chapter st) (loading st) s
    (retryCount st) (isAutoSwitching st).

(** [data.id === 'error' || data.content.length < 50] *)
Definition contentRejected (data : Chapter) : bool :=
  bool_decide (Chapter.id data = js "error") || (len (Chapter.content data) <? 50).

(** Whether the [try] block of [loadChapter] ends in its [catch]. *)
Definition attemptFailed (r : Settled) : bool :=
  match r with
  | Fulfilled data => contentRejected data
  | Rejected _ => true
  end.

Section Reader.

(** The props: [novel.title], [initialChapterIndex], [sourceName]. *)
Variable novelTitle : jsstring.
Variable initialChapterIndex : Z.
Variable sourceName : option jsstring.

(** [sourceName || '智能优选源'] *)
Definition defaultSourceName : jsstring :=
  match sourceName with
  | Some (c :: s) => c :: s
  | _ => js "智能优选源"
  end.

(** The state at the first render. *)
Definition mount : ReaderState :=
  mkReader initialChapterIndex None true defaultSourceName 0 false.

(** One run of the effect up to the [await] of the chapter: the
    synchronous part of [loadChapter], the wait when retrying, the call
    of [generateChapterContent], and the preloads of the first attempt.
    [st] is the state of the render that runs the effect. *)
Definition effectActions (st : ReaderState) : list Action :=
  (if isAutoSwitching st then [] else [ScrollToTop])
  ++ (if 0 <? retryCount st then [Delay 1500] else [])
  ++ [Fetch novelTitle (chapterIndex st)]
  ++ (if retryCount st =? 0
      then map (fun i => PreloadNext novelTitle (chapterIndex st + i))
             [1; 2; 3; 4; 5]
      else []).

(** The [catch] block; [closure] holds the values captured by the effect. *)
Definition catchBlock (closure cur : ReaderState) : ReaderState :=
  if retryCount closure <? 3 then
    setCurrentSourceName (js "备用线路 " ++ ofZ (retryCount closure + 1))
      (setRetryCount (fun prev => prev + 1)
         (setIsAutoSwitching true cur))
  else
    setIsAutoSwitching false (setChapter None cur).

(** The [finally] block. *)
Definition finallyBlock (closure cur : ReaderState) : ReaderState :=
  if (3 <=? retryCount closure)
     || (negb (isAutoSwitching closure)
         && match chapter closure with Some _ => true | None => false end)
  then setLoading false cur
  else cur.

(** The rest of [loadChapter] once [generateChapterContent] has settled
    with [r]. *)
Definition loadChapterSettled (closure : ReaderState) (r : Settled)
    (cur : ReaderState) : ReaderState :=
  finallyBlock closure
    (match r with
     | Fulfilled data =>
         if contentRejected data then catchBlock closure cur
         else setIsAutoSwitching false (setChapter (Some data) cur)
     | Rejected _ => catchBlock closure cur
     end).

(** The session that the first render opens, as long as the user does not
    navigate: the effect runs, and runs again each time [retryCount] has
    changed.  [outcomes] are the results of the successive calls of
    [generateChapterContent]; when they run out the last call is still
    pending.  One call is pending at a time, so that when it settles the
    current state is the state that the effect has captured, with [loading]
    set.  The chapter changes, the reset effect and the calls that overlap
    after a chapter change are in [Component] below. *)
Fixpoint session (outcomes : list Settled) (st : ReaderState)
    : ReaderState * list Action :=
  match outcomes with
  | [] => (setLoading true st, effectActions st)
  | r :: rest =>
      let st' := loadChapterSettled st r (setLoading true st) in
      if retryCount st' =? retryCount st then (st', effectActions st)
      else
        let '(final, acts) := session rest st' in
        (final, effectActions st ++ acts)
  end.

(** The number of calls of [generateChapterContent] in a trace. *)
Definition fetchCount (acts : list Action) : nat :=
  length (filter (fun a => isFetch a = true) acts).

(** The failure panel is shown: nothing loaded, not loading, not
    switching source. *)
Definition finalFailure (st : ReaderState) : Prop :=
  chapter st = None /\ loading st = false /\ isAutoSwitching st = false.

End Reader.

End Reader.

(** ** Callers of the service module *)

Section Callers.

Variable apiKey : jsstring.

(** A loop of [preloadChapter] calls, one per element of [tasks], in order:
    the [for] loop of the reader's effect and the [forEach] of the home
    page. *)
Definition preloadAll (tasks : list (jsstring * Z)) (st : State) : State :=
  foldl (fun s task => preloadChapter apiKey task.1 task.2 s) st tasks.

(** What one action of the reader's effect does to the service module, and
    the promise it obtains, if any. *)
Definition perform (a : Reader.Action) (st : State) : State * list Handle :=
  match a with
  | Reader.Fetch t i =>
      let '(st', h) := generateChapterContent apiKey Foreground t i st in
      (st', [h])
  | Reader.PreloadNext t i => (preloadChapter apiKey t i st, [])
  | Reader.ScrollToTop => (st, [])
  | Reader.Delay _ => (st, [])
  end.

Fixpoint performAll (acts : list Reader.Action) (st : State)
    : State * list Handle :=
  match acts with
  | [] => (st, [])
  | a :: acts' =>
      let '(st1, hs1) := perform a st in
      let '(st2, hs2) := performAll acts' st1 in
      (st2, hs1 ++ hs2)
  end.

End Callers.

(** The pairs preloaded by the [for] loop of the reader's first attempt. *)
Definition readerPreloads (novelTitle : jsstring) (chapterIndex : Z)
    : list (jsstring * Z) :=
  map (fun i => (novelTitle, chapterIndex + i)) [1; 2; 3; 4; 5].

(** components/Home.tsx, the preload strategy of [loadRankings]: the first
    two chapters of the first six novels of each ranking, given by title. *)
Definition homePreloads (urban history : list jsstring) : list (jsstring * Z) :=
  flat_map (fun novelTitle => [(novelTitle, 0); (novelTitle, 1)])
    (take 6 urban ++ take 6 history).

(** ** components/Reader.tsx: navigation *)

Module Navigation.

(** [setChapterIndex(prev => prev + 1)] *)
Definition nextChapter (prev : Z) : Z := prev + 1.

(** [setChapterIndex(prev => Math.max(0, prev - 1))] *)
Definition prevChapter (prev : Z) : Z := Z.max 0 (prev - 1).

Inductive Click : Type := Next | Prev.

Definition click (c : Click) (chapterIndex : Z) : Z :=
  match c with
  | Next => nextChapter chapterIndex
  | Prev => prevChapter chapterIndex
  end.

(** The chapter index after a sequence of clicks, first click first. *)
Definition clicks (cs : list Click) (chapterIndex : Z) : Z :=
  foldl (fun i c => click c i) chapterIndex cs.

End Navigation.

(** ** components/Reader.tsx: the component, its two effects and navigation *)

Module Component.

Import Reader.

(** [setChapterIndex] with an updater function. *)
Definition setChapterIndex (f : Z -> Z) (st : ReaderState) : ReaderState :=
  mkReader (f (chapterIndex st)) (chapter st) (loading st)
    (currentSourceName st) (retryCount st) (isAutoSwitching st).

(** The component between two events: the state variables as of the last
    render; the calls of [loadChapter] that have not finished, oldest first,
    each given by the state of the render whose effect made the call, that
    is, by the values its closure has captured; and the actions of the
    runs of the load effect so far, run after run in the order in which the
    runs have started. *)
Record t : Type := mk
  { state : ReaderState;
    loads : list ReaderState;
    trace : list Action }.

(** What happens to the component: the [i]-th unfinished [loadChapter]
    gets past its wait, if it has one, and its call of
    [generateChapterContent] settles with [r]; or the user clicks a
    navigation button.  The unfinished calls may settle in any order. *)
Inductive Event : Type :=
| Settles (i : nat) (r : Settled)
| Clicks (c : Navigation.Click).

Section Component.

(** The props: [novel.title] and [sourceName]. *)
Variable novelTitle : jsstring.
Variable sourceName : option jsstring.

(** The first effect (dependencies [chapterIndex] and [sourceName]):
    [setRetryCount(0); setIsAutoSwitching(false);
     setCurrentSourceName(sourceName || '智能优选源')]. *)
Definition resetEffect (st : ReaderState) : ReaderState :=
  setCurrentSourceName (defaultSourceName sourceName)
    (setIsAutoSwitching false (setRetryCount (fun _ => 0) st)).

(** One run of the second effect (dependencies [novel.title], [chapterIndex]
    and [retryCount]) in the render whose state is [render]: [loadChapter]
    is called with these values captured, sets [loading] and goes as far as
    its call of [generateChapterContent]; the effect has nothing to clean
    up, so that the calls made by earlier runs go on. *)
Definition loadEffect (render : ReaderState) (c : t) : t :=
  mk (setLoading true (state c)) (loads c ++ [render])
    (trace c ++ effectActions novelTitle render).

(** The effects after the render with state [render], the render before it
    having had the state [prev], and after the renders that their state
    updates cause in turn.  When the chapter index has changed both effects
    run, in the order of the source, on the values of that render: the
    load effect sees the [retryCount], [isAutoSwitching] and [chapter] of
    before the reset.  The updates of the two effects give the next render,
    in which the load effect runs again when [retryCount] has been changed
    by the reset. *)
Definition commit (prev render : ReaderState) (ls : list ReaderState)
    (tr : list Action) : t :=
  if negb (chapterIndex render =? chapterIndex prev) then
    let c1 := loadEffect render (mk (resetEffect render) ls tr) in
    if negb (retryCount (state c1) =? retryCount render)
    then loadEffect (state c1) c1
    else c1
  else if negb (retryCount render =? retryCount prev) then
    loadEffect render (mk render ls tr)
  else mk render ls tr.

(** The first render and its effects: both run. *)
Definition mounted (initialChapterIndex : Z) : t :=
  let render := mount initialChapterIndex sourceName in
  loadEffect render (mk (resetEffect render) [] []).

Definition step (ev : Event) (c : t) : option t :=
  match ev with
  | Settles i r =>
      match loads c !! i with
      | Some closure =>
          Some (commit (state c) (loadChapterSettled closure r (state c))
                  (delete i (loads c)) (trace c))
      | None => None
      end
  | Clicks k =>
      Some (commit (state c)
              (setChapterIndex (Navigation.click k) (state c))
              (loads c) (trace c))
  end.

Fixpoint run (evs : list Event) (c : t) : option t :=
  match evs with
  | [] => Some c
  | ev :: evs' =>
      match step ev c with
      | Some c' => run evs' c'
      | None => None
      end
  end.

(** The states of the component in the course of its life: it is mounted
    on some chapter, then calls settle and the user clicks. *)
Definition reachable (c : t) : Prop :=
  exists initialChapterIndex evs, run evs (mounted initialChapterIndex) = Some c.

(** The only unfinished [loadChapter] receives the successive [outcomes],
    as long as there is one. *)
Fixpoint settleAll (outcomes : list Settled) (c : t) : t :=
  match outcomes with
  | [] => c
  | r :: rest =>
      match step (Settles 0 r) c with
      | Some c' => settleAll rest c'
      | None => c
      end
  end.

End Component.

End Component.

(** ** services/geminiService.ts: generateEpubSummary *)

Module Epub.

(** The function once its request has settled: [response.text || "暂无简介"]
    in the [try], the fixed text of the [catch] otherwise. *)
Definition generateEpubSummarySettled (r : AdapterResult) : jsstring :=
  match r with
  | Responded (Some (c :: t)) => c :: t
  | Responded _ => js "暂无简介"
  | Failed _ => js "生成失败"
  end.

End Epub.

(** ** components/NovelDetail.tsx: the sources *)

Module NovelDetail.

Record NovelSource : Type := mkSource
  { id : jsstring;
    name : jsstring;
    latencyMs : Z;
    quality : Z;
    isOfficial : bool }.

(** [Array.prototype.sort] with the comparator [(a, b) => a.latencyMs -
    b.latencyMs]: the sort is stable, so the result is that of inserting
    each element, last first, before the first element that is not faster. *)
Fixpoint insertByLatency (s : NovelSource) (l : list NovelSource)
    : list NovelSource :=
  match l with
  | [] => [s]
  | s' :: l' =>
      if latencyMs s <=? latencyMs s' then s :: s' :: l'
      else s' :: insertByLatency s l'
  end.

Definition sortByLatency (l : list NovelSource) : list NovelSource :=
  foldr insertByLatency [] l.

(** The four sources of the mount effect; [r1] .. [r4] are the values of
    [Math.floor(Math.random() * n)] drawn for each. *)
Definition mockSources (r1 r2 r3 r4 : Z) : list NovelSource :=
  sortByLatency
    [ mkSource (js "src1") (js "起点中文网 (官方正版)") (r1 + 10) 100 true;
      mkSource (js "src2") (js "纵横中文网 (快速镜像)") (r2 + 30) 90 false;
      mkSource (js "src3") (js "笔趣阁 (极速源)") (r3 + 20) 80 false;
      mkSource (js "src4") (js "免费小说节点 1") (r4 + 100) 60 false ].

(** The state after the mount effect: [sources] and [selectedSourceId]
    ([mockSources[0].id]). *)
Definition mounted (r1 r2 r3 r4 : Z) : list NovelSource * option jsstring :=
  let sources := mockSources r1 r2 r3 r4 in
  (sources, id <$> head sources).

(** [sources.find(s => s.id === selectedSourceId)] *)
Definition getSelectedSource (sources : list NovelSource)
    (selectedSourceId : option jsstring) : option NovelSource :=
  match selectedSourceId with
  | Some sid => List.find (fun s => bool_decide (id s = sid)) sources
  | None => None
  end.

(** [handleRead]: the argument passed to [onRead]. *)
Definition handleRead (sources : list NovelSource)
    (selectedSourceId : option jsstring) : jsstring :=
  match getSelectedSource sources selectedSourceId with
  | Some source => name source
  | None => js "智能优选源"
  end.

End NovelDetail.

(** ** Sample data for the concrete executions *)

Module Sample.

Definition apiKey : jsstring := js "test-key".
Definition novelA : jsstring := js "NovelA".
Definition quota : JsError := Thrown (js "quota exceeded").

(** A response whose body, after the title line, has 10 code units. *)
Definition shortText : jsstring := js "Title" ++ [10%N] ++ js "0123456789".

(** One foreground call for chapter 0 of the novel is pending. *)
Definition oneCall : State :=
  (generateChapterContent apiKey Foreground novelA 0 initial).1.

(** The state after that call has succeeded with [shortText]. *)
Definition afterSuccess : State :=
  default initial (settle 0 (Responded (Some shortText)) oneCall).

(** The reader has been opened on chapter 0: its call is pending, the
    preloads of chapters 1 to 3 have started and those of chapters 4 and 5
    wait in the queue. *)
Definition readerOpened : State :=
  default initial
    (run apiKey
       [CallGenerate novelA 0; CallPreload novelA 1; CallPreload novelA 2;
        CallPreload novelA 3; CallPreload novelA 4; CallPreload novelA 5]
       initial).

Definition rejected : Settled := Rejected quota.

End Sample.

(** ** Further sample data *)

Module Demo.

Definition novelB : jsstring := js "NovelB".
Definition novelC : jsstring := js "NovelC".

(** A chapter with a body of 60 code units. *)
Definition goodChapter : Chapter :=
  Chapter.mk (chapterKey Sample.novelA 0) (js "Title") (replicate 60 65%N) 1.

(** The reader is open and the call of the first preload task has failed;
    the task has not finished yet. *)
Definition firstPreloadFailed : State :=
  default initial (settle 1 (Failed Sample.quota) Sample.readerOpened).

(** One preload has been asked for and its call has succeeded; the task has
    not finished yet. *)
Definition preloadAnswered : State :=
  default initial
    (run Sample.apiKey
       [CallPreload Sample.novelA 0;
        AdapterSettles 0 (Responded (Some Sample.shortText))]
       initial).

(** Without an API key: two preloads and a foreground call. *)
Definition keyless : State :=
  default initial
    (run []
       [CallPreload Sample.novelA 0; CallPreload Sample.novelA 1;
        CallGenerate Sample.novelA 0]
       initial).

End Demo.

(** ** Sample data for the reader component *)

Module Tour.

(** The reader has been opened on chapter 0 of the sample novel. *)
Definition opened : Component.t := Component.mounted Sample.novelA None 0.

(** Its four calls have been rejected: the failure panel is shown. *)
Definition failed : Component.t :=
  default opened
    (Component.run Sample.novelA None
       (replicate 4 (Component.Settles 0 Sample.rejected)) opened).

(** The user then clicks on the next chapter. *)
Definition nextAfterFailure : Component.t :=
  default failed
    (Component.step Sample.novelA None (Component.Clicks Navigation.Next) failed).

(** The first call has returned a chapter that the reader accepts: the
    chapter is shown. *)
Definition shown : Component.t :=
  default opened
    (Component.step Sample.novelA None
       (Component.Settles 0 (Fulfilled Demo.goodChapter)) opened).

End Tour.

(** ** Predicates on the state of the service module *)

(** The two maps and the request log agree: a cached key is not in flight,
    the keys in flight are those of the pending requests, each registered
    under the position of its request. *)
Record coherent (st : State) : Prop := mkCoherent
  { coh_disjoint : forall k,
      is_Some (chapterCache st !! k) -> activeRequests st !! k = None;
    coh_active : forall k p,
      activeRequests st !! k = Some p ->
      exists rq, requests st !! p = Some rq /\ req_key rq = k /\ req_result rq = None;
    coh_pending : forall p rq,
      requests st !! p = Some rq -> req_result rq = None ->
      activeRequests st !! req_key rq = Some p }.

(** A request made by a preload task and not yet settled. *)
Definition preloadPending (rq : Request) : Prop :=
  req_result rq = None /\ req_origin rq = Preload.

#[global] Instance preloadPending_dec rq : Decision (preloadPending rq).
Proof. unfold preloadPending. apply _. Defined.

(** The API calls made by preload tasks that are executing in [st]. *)
Definition preloadCallsInFlight (st : State) : list Request :=
  filter preloadPending (requests st).

(** The worker pool: the counter counts the started tasks, never exceeds
    the limit, tasks wait in the queue only when the pool is full, and every
    pending request made by a task is awaited by a started task. *)
Record pooled (st : State) : Prop := mkPooled
  { pool_count : activeWorkers st = Z.of_nat (length (running st));
    pool_limit : activeWorkers st <= CONCURRENCY_LIMIT;
    pool_queue : preloadQueue st <> [] -> CONCURRENCY_LIMIT <= activeWorkers st;
    pool_owner : forall p rq,
      requests st !! p = Some rq -> preloadPending rq ->
      Owner p (req_index rq) ∈ running st }.

(** The calls of the generative API made so far for the key [k]. *)
Definition adapterCalls (k : jsstring) (st : State) : list Request :=
  filter (fun rq => req_key rq = k) (requests st).

(** At a point where control can pass from one asynchronous operation to
    another, [k] is in at most one of the two maps. *)
Definition inAtMostOne (k : jsstring) (st : State) : Prop :=
  ~ (is_Some (chapterCache st !! k) /\ is_Some (activeRequests st !! k)).

(** * Properties *)

(** ** Invariants of the service module *)

Lemma coherent_withPool q w hs st : coherent st -> coherent (withPool q w hs st).
Proof. intros [H1 H2 H3]. by constructor. Qed.

Lemma coherent_initial : coherent initial.
Proof.
  constructor; simpl.
  - intros k [c Hc]. by rewrite lookup_empty in Hc.
  - intros k p Hk. by rewrite lookup_empty in Hk.
  - intros p rq Hp. by destruct p.
Qed.

Lemma pooled_initial : pooled initial.
Proof.
  constructor; simpl; try done.
Qed.

Lemma elem_of_delete_other {A} (l : list A) (i : nat) (h x : A) :
  l !! i = Some h -> x ∈ l -> x <> h -> x ∈ delete i l.
Proof.
  intros Hi Hx Hne. apply list_elem_of_lookup in Hx as [j Hj].
  apply list_elem_of_lookup.
  destruct (decide (j < i)%nat) as [Hlt|Hge].
  - exists j. by rewrite list_lookup_delete_lt.
  - destruct j as [|j].
    + assert (i = 0%nat) as -> by lia. congruence.
    + destruct (decide (S j = i)) as [<-|Hneq]; [congruence|].
      exists j. rewrite list_lookup_delete_ge by lia. done.
Qed.

(** Requests awaited by distinct handles of [hs] are at most [length hs]. *)
Lemma owned_requests_le (rs : list Request) (hs : list Handle) :
  (forall p rq, rs !! p = Some rq -> preloadPending rq ->
     Owner p (req_index rq) ∈ hs) ->
  (length (filter preloadPending rs) <= length hs)%nat.
Proof.
  revert hs. induction rs as [|rq rs IH] using rev_ind; intros hs Hown.
  { simpl. lia. }
  rewrite filter_app, length_app.
  destruct (decide (preloadPending rq)) as [Hrq|Hrq].
  - rewrite filter_cons_True, filter_nil by done. simpl.
    assert (Owner (length rs) (req_index rq) ∈ hs) as Hin.
    { apply Hown; [|done]. by apply list_lookup_middle. }
    apply list_elem_of_split in Hin as (l1 & l2 & ->).
    assert (length (filter preloadPending rs) <= length (l1 ++ l2))%nat.
    { apply IH. intros p rq' Hp Hrq'.
      assert (Owner p (req_index rq') ∈ l1 ++ Owner (length rs) (req_index rq) :: l2) as Hin
        by (apply Hown; [by apply lookup_app_l_Some|done]).
      apply lookup_lt_Some in Hp.
      rewrite elem_of_app, elem_of_cons in Hin. rewrite elem_of_app.
      destruct Hin as [?|[Heq|?]]; [by left| |by right].
      injection Heq as -> _. lia. }
    rewrite length_app in *. simpl. lia.
  - rewrite filter_cons_False, filter_nil by done. simpl.
    assert (length (filter preloadPending rs) <= length hs)%nat; [|lia].
    apply IH. intros p rq' Hp Hrq'. apply Hown; [|done].
    by apply lookup_app_l_Some.
Qed.

Section ServiceInvariants.

Variable apiKey : jsstring.

(** The four ways a call of [generateChapterContent] can go. *)
Lemma generate_cases o t i st :
  let k := chapterKey t i in
  let res := generateChapterContent apiKey o t i st in
  (apiKeyMissing apiKey = true /\ res = (st, Now missingKeyChapter))
  \/ (apiKeyMissing apiKey = false /\ exists c,
        chapterCache st !! k = Some c /\ res = (st, Now c))
  \/ (apiKeyMissing apiKey = false /\ chapterCache st !! k = None /\ exists p,
        activeRequests st !! k = Some p /\ res = (st, Joined p))
  \/ (apiKeyMissing apiKey = false /\ chapterCache st !! k = None
      /\ activeRequests st !! k = None
      /\ res = (activeSet k (length (requests st))
                  (withRequests (requests st ++ [mkRequest k t i o None]) st),
                Owner (length (requests st)) i)).
Proof.
  intros k res. subst res. unfold generateChapterContent. fold k.
  destruct (apiKeyMissing apiKey); [by left|].
  destruct (chapterCache st !! k) as [c|] eqn:Hc; [right; left; eauto|].
  destruct (activeRequests st !! k) as [p|] eqn:Ha.
  - right. right. left. eauto.
  - right. right. right. done.
Qed.

Lemma coherent_register st k t i o :
  coherent st ->
  chapterCache st !! k = None -> activeRequests st !! k = None ->
  coherent (activeSet k (length (requests st))
              (withRequests (requests st ++ [mkRequest k t i o None]) st)).
Proof.
  intros [H1 H2 H3] Hc Ha. constructor; simpl.
  - intros k' Hk'. destruct (decide (k = k')) as [<-|Hne].
    + rewrite Hc in Hk'. by destruct Hk'.
    + rewrite lookup_insert_ne; auto.
  - intros k' p Hk'. destruct (decide (k = k')) as [<-|Hne].
    + rewrite lookup_insert_eq in Hk'. injection Hk' as <-.
      eexists. split; [apply list_lookup_middle; done|done].
    + rewrite lookup_insert_ne in Hk' by done.
      destruct (H2 _ _ Hk') as (rq & Hrq & Hkey & Hres).
      exists rq. split; [by apply lookup_app_l_Some|done].
  - intros p rq Hp Hres. apply lookup_snoc_Some in Hp as [[Hlt Hp]|[-> <-]].
    + pose proof (H3 _ _ Hp Hres) as Hact.
      rewrite lookup_insert_ne; [done|]. intros ->. congruence.
    + simpl. apply lookup_insert_eq.
Qed.

Lemma generate_coherent o t i st :
  coherent st -> coherent (generateChapterContent apiKey o t i st).1.
Proof.
  intros Hst.
  destruct (generate_cases o t i st)
    as [[_ ->]|[(_ & c & _ & ->)|[(_ & _ & p & _ & ->)|(_ & Hc & Ha & ->)]]];
    simpl; auto using coherent_register.
Qed.

(** A pending request is registered and its key is not cached. *)
Lemma pending_registered st p rq :
  coherent st -> requests st !! p = Some rq -> req_result rq = None ->
  activeRequests st !! req_key rq = Some p /\ chapterCache st !! req_key rq = None.
Proof.
  intros Hst Hp Hres. pose proof (coh_pending _ Hst _ _ Hp Hres) as Ha.
  split; [done|]. destruct (chapterCache st !! req_key rq) eqn:Hc; [|done].
  rewrite (coh_disjoint _ Hst (req_key rq)) in Ha; [done|eauto].
Qed.

(** The state once the statements of the continuation have run and
    [requestPromise] has settled; [written] is the chapter put in the
    cache, if any. *)
Lemma coherent_resolve st p rq v (written : option Chapter) :
  coherent st -> requests st !! p = Some rq -> req_result rq = None ->
  coherent (resolveRequest p rq v
              (activeDelete (req_key rq)
                 (match written with
                  | Some c => cacheSet (req_key rq) c st
                  | None => st
                  end))).
Proof.
  intros Hst Hp Hres.
  destruct (pending_registered _ _ _ Hst Hp Hres) as [Ha Hc].
  destruct Hst as [H1 H2 H3].
  assert (Hcache : forall k, k <> req_key rq ->
            is_Some (chapterCache
                       (match written with
                        | Some c => cacheSet (req_key rq) c st
                        | None => st
                        end) !! k) ->
            is_Some (chapterCache st !! k)).
  { intros k Hne. destruct written; simpl; [|done].
    by rewrite lookup_insert_ne. }
  constructor.
  - intros k Hk. simpl in *. destruct (decide (req_key rq = k)) as [<-|Hne].
    + destruct written; apply lookup_delete_eq.
    + assert (activeRequests st !! k = None) as Hnone
        by (apply H1, Hcache; [done|by destruct written]).
      destruct written; simpl; by rewrite lookup_delete_ne.
  - intros k q Hk.
    assert (k <> req_key rq /\ activeRequests st !! k = Some q) as [Hne Hk'].
    { destruct written; simpl in Hk;
        apply lookup_delete_Some in Hk as [Hne Hk]; done. }
    destruct (H2 _ _ Hk') as (rq' & Hq & Hkey & Hres').
    exists rq'. split; [|done].
    destruct written; simpl; (rewrite list_lookup_insert_ne; [done|]);
      intros ->; congruence.
  - intros q rq' Hq Hres'.
    assert (requests st !! q = Some rq' /\ p <> q) as [Hq' Hne].
    { destruct (decide (p = q)) as [<-|Hne].
      - destruct written; simpl in Hq;
          (rewrite list_lookup_insert_eq in Hq by (by eapply lookup_lt_Some));
          injection Hq as <-; done.
      - destruct written; simpl in Hq;
          rewrite list_lookup_insert_ne in Hq by done; done. }
    pose proof (H3 _ _ Hq' Hres') as Hact.
    assert (req_key rq <> req_key rq') by (intros Heq; rewrite Heq in Ha; congruence).
    destruct written; simpl; by rewrite lookup_delete_ne.
Qed.

Lemma settle_inv p r st st' :
  settle p r st = Some st' ->
  exists rq, requests st !! p = Some rq /\ req_result rq = None
    /\ st' = resolveRequest p rq (requestContinuation rq r).2
               (runStatements (requestContinuation rq r).1 st).
Proof.
  unfold settle. intros H.
  destruct (requests st !! p) as [rq|] eqn:Hp; [|done].
  destruct (req_result rq) eqn:Hres; [done|].
  destruct (requestContinuation rq r) as [ops v] eqn:Hk.
  injection H as <-. exists rq. by rewrite Hk.
Qed.

Lemma settle_coherent p r st st' :
  coherent st -> settle p r st = Some st' -> coherent st'.
Proof.
  intros Hst H. apply settle_inv in H as (rq & Hp & Hres & ->).
  destruct r as [text|e]; simpl.
  - by apply (coherent_resolve st p rq _ (Some _)).
  - by apply (coherent_resolve st p rq _ None).
Qed.

Lemma processQueue_coherent st : coherent st -> coherent (processQueue apiKey st).
Proof.
  intros Hst. unfold processQueue.
  destruct (preloadQueue st) as [|task rest]; [done|].
  destruct (CONCURRENCY_LIMIT <=? activeWorkers st); [done|].
  pose proof (generate_coherent Preload task.1 task.2
                (withPool rest (activeWorkers st + 1) (running st) st)
                (coherent_withPool _ _ _ _ Hst)) as H.
  destruct (generateChapterContent apiKey Preload task.1 task.2 _) as [st2 h].
  by apply coherent_withPool.
Qed.

Lemma preloadChapter_coherent t i st :
  coherent st -> coherent (preloadChapter apiKey t i st).
Proof.
  intros Hst. unfold preloadChapter.
  destruct (_ || _); [done|].
  by apply processQueue_coherent, coherent_withPool.
Qed.

Lemma taskSettled_coherent i st st' :
  coherent st -> taskSettled apiKey i st = Some st' -> coherent st'.
Proof.
  intros Hst H. unfold taskSettled in H.
  destruct (running st !! i) as [h|]; [|done].
  destruct (observe st h); [|done]. injection H as <-.
  by apply processQueue_coherent, coherent_withPool.
Qed.

(** [processQueue] restores the pool invariant from a state where one
    task too many may be waiting. *)
Lemma processQueue_pooled st :
  activeWorkers st = Z.of_nat (length (running st)) ->
  activeWorkers st <= CONCURRENCY_LIMIT ->
  (forall task rest, preloadQueue st = task :: rest ->
     rest <> [] -> CONCURRENCY_LIMIT <= activeWorkers st + 1) ->
  (forall p rq, requests st !! p = Some rq -> preloadPending rq ->
     Owner p (req_index rq) ∈ running st) ->
  pooled (processQueue apiKey st).
Proof.
  intros Hcount Hlimit Hqueue Howner. unfold processQueue.
  destruct (preloadQueue st) as [|task rest] eqn:Hq.
  { by constructor. }
  pose proof (Hqueue _ _ eq_refl) as Hrest.
  destruct (CONCURRENCY_LIMIT <=? activeWorkers st) eqn:Hfull.
  { apply Z.leb_le in Hfull. by constructor. }
  apply Z.leb_gt in Hfull.
  set (st1 := withPool rest (activeWorkers st + 1) (running st) st).
  destruct (generate_cases Preload task.1 task.2 st1)
    as [[_ ->]|[(_ & c & _ & ->)|[(_ & _ & p & _ & ->)|(_ & _ & _ & ->)]]];
    (constructor; simpl;
     [ rewrite length_app; simpl; lia
     | lia
     | done
     | ]).
  1-3: intros q rq Hp Hrq; apply elem_of_app; left; by apply Howner.
  intros q rq Hp Hrq. apply elem_of_app.
  apply lookup_snoc_Some in Hp as [[_ Hp]|[-> <-]].
  - left. by apply Howner.
  - right. simpl. apply list_elem_of_singleton. done.
Qed.

Lemma generate_pooled t i st :
  pooled st -> pooled (generateChapterContent apiKey Foreground t i st).1.
Proof.
  intros Hst.
  destruct (generate_cases Foreground t i st)
    as [[_ ->]|[(_ & c & _ & ->)|[(_ & _ & p & _ & ->)|(_ & _ & _ & ->)]]];
    simpl; try done.
  destruct Hst as [H1 H2 H3 H4]. constructor; simpl; try done.
  intros p rq Hp Hrq. apply lookup_snoc_Some in Hp as [[_ Hp]|[-> <-]].
  - by apply H4.
  - by destruct Hrq.
Qed.

Lemma preloadChapter_pooled t i st :
  pooled st -> pooled (preloadChapter apiKey t i st).
Proof.
  intros Hst. unfold preloadChapter. destruct (_ || _); [done|].
  destruct Hst as [H1 H2 H3 H4]. apply processQueue_pooled; simpl; try done.
  intros task rest Hq Hrest.
  destruct (preloadQueue st) as [|t0 q0]; simpl in Hq.
  - injection Hq as _ <-. done.
  - assert (CONCURRENCY_LIMIT <= activeWorkers st) by (by apply H3). lia.
Qed.

Lemma settle_pooled p r st st' :
  pooled st -> settle p r st = Some st' -> pooled st'.
Proof.
  intros [H1 H2 H3 H4] H. apply settle_inv in H as (rq & Hp & Hres & ->).
  assert (forall q rq', <[p := mkRequest (req_key rq) (req_title rq) (req_index rq)
                                 (req_origin rq) (Some (requestContinuation rq r).2)]>
                          (requests st) !! q = Some rq' ->
                        preloadPending rq' -> Owner q (req_index rq') ∈ running st)
    as Hown.
  { intros q rq' Hq Hrq'. destruct (decide (p = q)) as [<-|Hne].
    - rewrite list_lookup_insert_eq in Hq by (by eapply lookup_lt_Some).
      injection Hq as <-. by destruct Hrq'.
    - rewrite list_lookup_insert_ne in Hq by done. by apply H4. }
  destruct r as [text|e]; by constructor.
Qed.

Lemma taskSettled_pooled i st st' :
  pooled st -> taskSettled apiKey i st = Some st' -> pooled st'.
Proof.
  intros [H1 H2 H3 H4] H. unfold taskSettled in H.
  destruct (running st !! i) as [h|] eqn:Hi; [|done].
  destruct (observe st h) as [v|] eqn:Hobs; [|done]. injection H as <-.
  apply processQueue_pooled; simpl.
  - rewrite length_delete by eauto. apply lookup_lt_Some in Hi. lia.
  - lia.
  - intros task rest Hq _.
    assert (CONCURRENCY_LIMIT <= activeWorkers st) by (apply H3; by rewrite Hq).
    lia.
  - intros p rq Hp Hrq. apply (elem_of_delete_other _ _ h); [done|by apply H4|].
    intros <-. destruct Hrq as [Hres _].
    simpl in Hobs. unfold promiseState in Hobs. rewrite Hp, Hres in Hobs. done.
Qed.

Lemma step_invariant ev st st' :
  coherent st /\ pooled st -> step apiKey ev st = Some st' ->
  coherent st' /\ pooled st'.
Proof.
  intros [Hc Hp] H. destruct ev as [t i|t i|p r|i]; simpl in H.
  - injection H as <-. eauto using generate_coherent, generate_pooled.
  - injection H as <-. eauto using preloadChapter_coherent, preloadChapter_pooled.
  - eauto using settle_coherent, settle_pooled.
  - eauto using taskSettled_coherent, taskSettled_pooled.
Qed.

Lemma run_invariant evs st st' :
  coherent st /\ pooled st -> run apiKey evs st = Some st' ->
  coherent st' /\ pooled st'.
Proof.
  revert st. induction evs as [|ev evs IH]; intros st Hst H; simpl in H.
  - by injection H as <-.
  - destruct (step apiKey ev st) as [st1|] eqn:Hstep; [|done].
    eauto using step_invariant.
Qed.

Lemma reachable_invariant st :
  reachable apiKey st -> coherent st /\ pooled st.
Proof.
  intros [evs H]. eapply run_invariant; [|done].
  split; [apply coherent_initial|apply pooled_initial].
Qed.

Lemma run_app evs1 evs2 st :
  run apiKey (evs1 ++ evs2) st
  = match run apiKey evs1 st with
    | Some st' => run apiKey evs2 st'
    | None => None
    end.
Proof.
  revert st. induction evs1 as [|ev evs1 IH]; intros st; simpl; [done|].
  destruct (step apiKey ev st); [apply IH|done].
Qed.

Lemma reachable_run evs st st' :
  reachable apiKey st -> run apiKey evs st = Some st' -> reachable apiKey st'.
Proof.
  intros [evs0 H0] H. exists (evs0 ++ evs). by rewrite run_app, H0.
Qed.

End ServiceInvariants.

(** ** The fetch coordinator *)

Lemma settle_pending p rq r st :
  requests st !! p = Some rq -> req_result rq = None ->
  settle p r st
  = Some (resolveRequest p rq (requestContinuation rq r).2
            (runStatements (requestContinuation rq r).1 st)).
Proof.
  intros Hp Hres. unfold settle. rewrite Hp, Hres.
  by destruct (requestContinuation rq r).
Qed.

Lemma requests_runStatements rq r st :
  requests (runStatements (requestContinuation rq r).1 st) = requests st.
Proof. by destruct r. Qed.

Lemma promiseState_resolved p rq v st :
  (p < length (requests st))%nat ->
  promiseState (resolveRequest p rq v st) p = Some v.
Proof.
  intros Hlt. unfold promiseState, resolveRequest. simpl.
  by rewrite list_lookup_insert_eq.
Qed.

(** Once a request has settled, what its promise settled to. *)
Lemma settled_promise p rq r st st' :
  requests st !! p = Some rq -> settle p r st = Some st' ->
  promiseState st' p = Some (requestContinuation rq r).2.
Proof.
  intros Hp H. apply settle_inv in H as (rq' & Hp' & _ & ->).
  assert (rq' = rq) as -> by congruence.
  apply promiseState_resolved. rewrite requests_runStatements.
  by eapply lookup_lt_Some.
Qed.

Section Coordinator.

Variable apiKey : jsstring.

(** While a request for a chapter is registered, every call for that
    chapter joins it and changes nothing. *)
Lemma generate_joins o t i st p :
  apiKeyMissing apiKey = false ->
  chapterCache st !! chapterKey t i = None ->
  activeRequests st !! chapterKey t i = Some p ->
  generateChapterContent apiKey o t i st = (st, Joined p).
Proof.
  intros Hkey Hc Ha. unfold generateChapterContent. by rewrite Hkey, Hc, Ha.
Qed.

Lemma generate_creates o t i st :
  apiKeyMissing apiKey = false ->
  chapterCache st !! chapterKey t i = None ->
  activeRequests st !! chapterKey t i = None ->
  generateChapterContent apiKey o t i st
  = (activeSet (chapterKey t i) (length (requests st))
       (withRequests
          (requests st ++ [mkRequest (chapterKey t i) t i o None]) st),
     Owner (length (requests st)) i).
Proof.
  intros Hkey Hc Ha. unfold generateChapterContent. by rewrite Hkey, Hc, Ha.
Qed.

Lemma generate_cached o t i st c :
  apiKeyMissing apiKey = false ->
  chapterCache st !! chapterKey t i = Some c ->
  generateChapterContent apiKey o t i st = (st, Now c).
Proof.
  intros Hkey Hc. unfold generateChapterContent. by rewrite Hkey, Hc.
Qed.

Lemma concurrentCalls_join n t i st p :
  apiKeyMissing apiKey = false ->
  chapterCache st !! chapterKey t i = None ->
  activeRequests st !! chapterKey t i = Some p ->
  concurrentCalls apiKey n t i st = (st, replicate n (Joined p)).
Proof.
  intros Hkey Hc Ha. induction n as [|n IH]; simpl; [done|].
  by rewrite (generate_joins _ _ _ _ p), IH.
Qed.

(** Without an API key nothing is ever requested. *)
Lemma run_without_key evs st st' :
  apiKeyMissing apiKey = true -> run apiKey evs st = Some st' ->
  requests st = [] -> requests st' = [].
Proof.
  intros Hkey. revert st. induction evs as [|ev evs IH]; intros st H Hrs; simpl in H.
  { by injection H as <-. }
  destruct (step apiKey ev st) as [st1|] eqn:Hstep; [|done].
  apply (IH st1); [done|]. clear IH H.
  assert (forall o t i s, requests (generateChapterContent apiKey o t i s).1 = requests s)
    as Hgen.
  { intros o t i s. unfold generateChapterContent. by rewrite Hkey. }
  assert (forall s, requests (processQueue apiKey s) = requests s) as Hproc.
  { intros s. unfold processQueue. destruct (preloadQueue s) as [|task rest]; [done|].
    destruct (CONCURRENCY_LIMIT <=? activeWorkers s); [done|].
    pose proof (Hgen Preload task.1 task.2
                  (withPool rest (activeWorkers s + 1) (running s) s)) as Hg.
    by destruct (generateChapterContent apiKey Preload task.1 task.2 _). }
  destruct ev as [t i|t i|p r|i]; simpl in Hstep.
  - injection Hstep as <-. by rewrite Hgen.
  - injection Hstep as <-. unfold preloadChapter.
    destruct (_ || _); [done|]. by rewrite Hproc.
  - apply settle_inv in Hstep as (rq & Hp & _). by rewrite Hrs in Hp.
  - unfold taskSettled in Hstep. destruct (running st !! i); [|done].
    destruct (observe st _); [|done]. injection Hstep as <-. by rewrite Hproc.
Qed.

Lemma reachable_key_present st p rq :
  reachable apiKey st -> requests st !! p = Some rq -> apiKeyMissing apiKey = false.
Proof.
  intros [evs Hrun] Hp. destruct (apiKeyMissing apiKey) eqn:Hkey; [|done].
  by rewrite (run_without_key _ _ _ Hkey Hrun eq_refl) in Hp.
Qed.

(** A step keeps every request of the log in place, with its key. *)
Lemma step_request_kept ev st st' p rq :
  step apiKey ev st = Some st' -> requests st !! p = Some rq ->
  exists rq', requests st' !! p = Some rq' /\ req_key rq' = req_key rq.
Proof.
  intros Hstep Hp.
  assert (forall o t i s,
            requests s !! p = Some rq ->
            requests (generateChapterContent apiKey o t i s).1 !! p = Some rq)
    as Hgen.
  { intros o t i s Hs.
    destruct (generate_cases apiKey o t i s)
      as [[_ ->]|[(_ & c & _ & ->)|[(_ & _ & q & _ & ->)|(_ & _ & _ & ->)]]];
      simpl; try done.
    by apply lookup_app_l_Some. }
  assert (forall s,
            requests s !! p = Some rq ->
            requests (processQueue apiKey s) !! p = Some rq) as Hproc.
  { intros s Hs. unfold processQueue.
    destruct (preloadQueue s) as [|task rest]; [done|].
    destruct (CONCURRENCY_LIMIT <=? activeWorkers s); [done|].
    pose proof (Hgen Preload task.1 task.2
                  (withPool rest (activeWorkers s + 1) (running s) s) Hs) as Hg.
    by destruct (generateChapterContent apiKey Preload task.1 task.2 _). }
  destruct ev as [t i|t i|q r|i]; simpl in Hstep.
  - injection Hstep as <-. eauto.
  - injection Hstep as <-. unfold preloadChapter.
    destruct (_ || _); [by eauto|].
    exists rq. split; [|done].
    by apply (Hproc (withPool (preloadQueue st ++ [(t, i)]) (activeWorkers st)
                       (running st) st)).
  - apply settle_inv in Hstep as (rq0 & Hq & _ & ->).
    unfold resolveRequest. simpl. rewrite requests_runStatements.
    destruct (decide (q = p)) as [->|Hne].
    + rewrite list_lookup_insert_eq by (by eapply lookup_lt_Some).
      assert (rq0 = rq) as -> by congruence. eauto.
    + rewrite list_lookup_insert_ne by done. eauto.
  - unfold taskSettled in Hstep. destruct (running st !! i); [|done].
    destruct (observe st _); [|done]. injection Hstep as <-.
    exists rq. split; [|done].
    by apply (Hproc (withPool (preloadQueue st) (activeWorkers st - 1)
                       (delete i (running st)) st)).
Qed.

Lemma run_request_kept evs st st' p rq :
  run apiKey evs st = Some st' -> requests st !! p = Some rq ->
  exists rq', requests st' !! p = Some rq' /\ req_key rq' = req_key rq.
Proof.
  revert st rq. induction evs as [|ev evs IH]; intros st rq H Hp; simpl in H.
  { injection H as <-. eauto. }
  destruct (step apiKey ev st) as [st1|] eqn:Hstep; [|done].
  destruct (step_request_kept _ _ _ _ _ Hstep Hp) as (rq1 & Hp1 & Hk1).
  destruct (IH _ _ H Hp1) as (rq' & Hp' & Hk'). exists rq'. split; [done|congruence].
Qed.

(** Whatever else happens, as long as the request [p] for a chapter has not
    settled, a call for that chapter joins it and changes nothing. *)
Lemma joins_until_settled o t i st p rq :
  reachable apiKey st ->
  requests st !! p = Some rq -> req_key rq = chapterKey t i ->
  promiseState st p = None ->
  generateChapterContent apiKey o t i st = (st, Joined p).
Proof.
  intros Hreach Hp Hk Hpend.
  destruct (reachable_invariant _ _ Hreach) as [Hcoh _].
  assert (req_result rq = None) as Hres
    by (unfold promiseState in Hpend; by rewrite Hp in Hpend).
  destruct (pending_registered _ _ _ Hcoh Hp Hres) as [Ha Hc].
  rewrite Hk in Ha, Hc.
  apply generate_joins; [|done..]. by eapply reachable_key_present.
Qed.

(** C1 (as amended).  When [n + 1] callers ask for a chapter that is
    neither cached nor in flight before anything settles, the generative
    API is called exactly once: the first caller creates the request and
    the [n] others join it.  If the call succeeds every caller receives the
    same chapter.  If it fails with [e], the [n] joined callers are rejected
    with [e] while the first caller is fulfilled with the failure chapter
    of its [catch] block.  Whatever else the module does in the meantime,
    a further call for the chapter made before the request has settled
    joins it too. *)
Theorem concurrent_fetch_one_call n t i st :
  reachable apiKey st ->
  apiKeyMissing apiKey = false ->
  chapterCache st !! chapterKey t i = None ->
  activeRequests st !! chapterKey t i = None ->
  let k := chapterKey t i in
  let p := length (requests st) in
  exists st1,
    concurrentCalls apiKey (S n) t i st
    = (st1, Owner p i :: replicate n (Joined p))
    /\ requests st1 = requests st ++ [mkRequest k t i Foreground None]
    /\ (forall text, exists st2,
          settle p (Responded text) st1 = Some st2
          /\ forall h, h ∈ Owner p i :: replicate n (Joined p) ->
               observe st2 h = Some (Fulfilled (buildChapter k i text)))
    /\ (forall e, exists st2,
          settle p (Failed e) st1 = Some st2
          /\ observe st2 (Owner p i) = Some (Fulfilled (failedChapter i))
          /\ forall h, h ∈ replicate n (Joined p) ->
               observe st2 h = Some (Rejected e))
    /\ (forall evs st2 o,
          run apiKey evs st1 = Some st2 -> promiseState st2 p = None ->
          generateChapterContent apiKey o t i st2 = (st2, Joined p)).
Proof.
  intros Hreach Hkey Hc Ha k p.
  set (rq := mkRequest k t i Foreground None).
  set (st1 := activeSet k p (withRequests (requests st ++ [rq]) st)).
  assert (requests st1 !! p = Some rq) as Hp by (by apply list_lookup_middle).
  assert (generateChapterContent apiKey Foreground t i st
          = (st1, Owner p i)) as Hfirst by (by apply generate_creates).
  exists st1. split; [|split; [done|split; [|split]]].
  - simpl. rewrite Hfirst.
    rewrite (concurrentCalls_join _ _ _ _ p); [done..| |]; simpl; [done|].
    apply lookup_insert_eq.
  - intros text. eexists. split; [by apply settle_pending|].
    assert (promiseState
              (resolveRequest p rq (requestContinuation rq (Responded text)).2
                 (runStatements (requestContinuation rq (Responded text)).1 st1)) p
            = Some (Fulfilled (buildChapter k i text))) as Hst.
    { apply promiseState_resolved. by eapply lookup_lt_Some. }
    intros h [->|Hh]%elem_of_cons.
    + cbn [observe]. by rewrite Hst.
    + apply elem_of_replicate in Hh as [-> _]. done.
  - intros e. eexists. split; [by apply settle_pending|].
    assert (promiseState
              (resolveRequest p rq (requestContinuation rq (Failed e)).2
                 (runStatements (requestContinuation rq (Failed e)).1 st1)) p
            = Some (Rejected e)) as Hst.
    { apply promiseState_resolved. by eapply lookup_lt_Some. }
    split.
    + cbn [observe]. by rewrite Hst.
    + intros h Hh. apply elem_of_replicate in Hh as [-> _]. done.
  - intros evs st2 o Hrun Hpend.
    assert (reachable apiKey st1) as Hreach1.
    { apply (reachable_run _ [CallGenerate t i] st); [done|].
      simpl. by rewrite Hfirst. }
    destruct (run_request_kept _ _ _ _ _ Hrun Hp) as (rq' & Hp' & Hk').
    by apply (joins_until_settled o t i st2 p rq');
      [eapply reachable_run| | |].
Qed.

(** C2 (as amended).  The coordinator does not validate the response: when
    the API call of a pending request succeeds, the chapter built from the
    response is written to the cache whatever the length of its body, the
    key leaves the in-flight map, and the creator of the request and every
    joined caller are fulfilled with that chapter.  The length check is
    made by the reader: [loadChapter] handles a chapter whose body has
    fewer than 50 code units exactly as it handles a rejection. *)
Theorem success_is_cached_unvalidated p rq text st :
  requests st !! p = Some rq -> req_result rq = None ->
  let c := buildChapter (req_key rq) (req_index rq) text in
  exists st',
    settle p (Responded text) st = Some st'
    /\ chapterCache st' !! req_key rq = Some c
    /\ activeRequests st' !! req_key rq = None
    /\ observe st' (Joined p) = Some (Fulfilled c)
    /\ (forall i, observe st' (Owner p i) = Some (Fulfilled c))
    /\ (len (Chapter.content c) < 50 ->
        Reader.attemptFailed (Fulfilled c) = true
        /\ forall closure cur e,
             Reader.loadChapterSettled closure (Fulfilled c) cur
             = Reader.loadChapterSettled closure (Rejected e) cur).
Proof.
  intros Hp Hres c. eexists. split; [by apply settle_pending|].
  assert (promiseState
            (resolveRequest p rq (requestContinuation rq (Responded text)).2
               (runStatements (requestContinuation rq (Responded text)).1 st)) p
          = Some (Fulfilled c)) as Hst.
  { apply promiseState_resolved. by eapply lookup_lt_Some. }
  split; [apply lookup_insert_eq|].
  split; [apply lookup_delete_eq|].
  split; [done|]. split.
  - intros i. cbn [observe]. by rewrite Hst.
  - intros Hlen.
    assert (Reader.contentRejected c = true) as Hrej.
    { unfold Reader.contentRejected. apply orb_true_iff. right. by apply Z.ltb_lt. }
    split; [done|]. intros closure cur e.
    unfold Reader.loadChapterSettled. by rewrite Hrej.
Qed.

(** C4 (as amended).  In every state between two atomic steps no key is
    both cached and in flight.  When the API call of a pending request
    settles, the continuation runs without interruption: on success it
    first writes the cache and then removes the key from the in-flight map,
    on failure it only removes the key; afterwards the key is no longer in
    flight. *)
Theorem cache_and_in_flight_disjoint st :
  reachable apiKey st ->
  (forall k, inAtMostOne k st)
  /\ forall p rq r,
      requests st !! p = Some rq -> req_result rq = None ->
      let k := req_key rq in
      exists st',
        settle p r st = Some st'
        /\ activeRequests st' !! k = None
        /\ (forall k', inAtMostOne k' st')
        /\ match r with
           | Responded text =>
               let c := buildChapter k (req_index rq) text in
               instants (requestContinuation rq r).1 st
               = [cacheSet k c st; activeDelete k (cacheSet k c st)]
               /\ chapterCache st' !! k = Some c
           | Failed e =>
               instants (requestContinuation rq r).1 st = [activeDelete k st]
               /\ chapterCache st' !! k = None
           end.
Proof.
  intros Hreach. destruct (reachable_invariant _ _ Hreach) as [Hcoh _].
  assert (forall s, coherent s -> forall k, inAtMostOne k s) as Hone.
  { intros s Hs k [Hk [q Hq]]. by rewrite (coh_disjoint _ Hs k Hk) in Hq. }
  split; [by apply Hone|].
  intros p rq r Hp Hres k.
  destruct (pending_registered _ _ _ Hcoh Hp Hres) as [Ha Hc].
  eexists. split; [by apply settle_pending|].
  split; [destruct r; apply lookup_delete_eq|].
  split.
  - apply Hone. eapply settle_coherent; [done|]. by apply settle_pending.
  - destruct r as [text|e]; simpl; (split; [done|]).
    + apply lookup_insert_eq.
    + done.
Qed.

Lemma filter_insert_irrelevant {A} (P : A -> Prop) `{!forall x, Decision (P x)}
    (l : list A) (p : nat) (x y : A) :
  l !! p = Some x -> ~ P x -> ~ P y -> filter P (<[p := y]> l) = filter P l.
Proof.
  intros Hp Hx Hy.
  rewrite insert_take_drop by (by eapply lookup_lt_Some).
  rewrite <- (take_drop_middle l p x Hp) at 3.
  by rewrite !filter_app, !filter_cons_False.
Qed.

(** A step changes neither a cached chapter nor the calls made for its key. *)
Lemma step_cached k c ev st st' :
  coherent st -> chapterCache st !! k = Some c -> step apiKey ev st = Some st' ->
  chapterCache st' !! k = Some c /\ adapterCalls k st' = adapterCalls k st.
Proof.
  intros Hcoh Hk Hstep.
  assert (forall o t i s,
            chapterCache s !! k = Some c ->
            chapterCache (generateChapterContent apiKey o t i s).1 !! k = Some c
            /\ adapterCalls k (generateChapterContent apiKey o t i s).1
               = adapterCalls k s) as Hgen.
  { intros o t i s Hs.
    destruct (generate_cases apiKey o t i s)
      as [[_ ->]|[(_ & c' & _ & ->)|[(_ & _ & p & _ & ->)|(_ & Hc & _ & ->)]]];
      simpl; try done.
    split; [done|]. unfold adapterCalls; simpl.
    rewrite filter_app, filter_cons_False, filter_nil, app_nil_r; [done|].
    simpl. intros <-. congruence. }
  assert (forall s,
            chapterCache s !! k = Some c ->
            chapterCache (processQueue apiKey s) !! k = Some c
            /\ adapterCalls k (processQueue apiKey s) = adapterCalls k s) as Hproc.
  { intros s Hs. unfold processQueue.
    destruct (preloadQueue s) as [|task rest]; [done|].
    destruct (CONCURRENCY_LIMIT <=? activeWorkers s); [done|].
    pose proof (Hgen Preload task.1 task.2
                  (withPool rest (activeWorkers s + 1) (running s) s) Hs) as Hg.
    by destruct (generateChapterContent apiKey Preload task.1 task.2 _). }
  destruct ev as [t i|t i|p r|i]; simpl in Hstep.
  - injection Hstep as <-. by apply Hgen.
  - injection Hstep as <-. unfold preloadChapter.
    destruct (_ || _); [done|].
    by apply (Hproc (withPool (preloadQueue st ++ [(t, i)]) (activeWorkers st)
                       (running st) st)).
  - apply settle_inv in Hstep as (rq & Hp & Hres & ->).
    destruct (pending_registered _ _ _ Hcoh Hp Hres) as [_ Hc].
    assert (req_key rq <> k) as Hne by (intros Heq; rewrite Heq in Hc; congruence).
    split.
    + destruct r; simpl; [by rewrite lookup_insert_ne|done].
    + unfold adapterCalls, resolveRequest. simpl.
      rewrite requests_runStatements.
      by apply (filter_insert_irrelevant _ _ _ rq).
  - unfold taskSettled in Hstep. destruct (running st !! i); [|done].
    destruct (observe st _); [|done]. injection Hstep as <-.
    by apply (Hproc (withPool (preloadQueue st) (activeWorkers st - 1)
                       (delete i (running st)) st)).
Qed.

Lemma run_cached k c evs st st' :
  coherent st /\ pooled st ->
  chapterCache st !! k = Some c -> run apiKey evs st = Some st' ->
  chapterCache st' !! k = Some c /\ adapterCalls k st' = adapterCalls k st.
Proof.
  revert st. induction evs as [|ev evs IH]; intros st Hinv Hk H; simpl in H.
  { by injection H as <-. }
  destruct (step apiKey ev st) as [st1|] eqn:Hstep; [|done].
  destruct (step_cached _ _ _ _ _ (proj1 Hinv) Hk Hstep) as [Hk1 Hcalls1].
  destruct (IH st1 (step_invariant _ _ _ _ Hinv Hstep) Hk1 H) as [Hk' Hcalls'].
  split; [done|]. by rewrite Hcalls'.
Qed.

(** C5.  Once the API call of a request has succeeded, the chapter it
    produced stays in the cache unchanged whatever happens next, every
    later call of [generateChapterContent] for that key returns this very
    chapter at once, and the list of API calls made for the key never
    grows again. *)
Theorem successful_fetch_is_final p rq text st0 st evs st' :
  reachable apiKey st0 ->
  requests st0 !! p = Some rq -> req_result rq = None ->
  settle p (Responded text) st0 = Some st ->
  run apiKey evs st = Some st' ->
  let c := buildChapter (req_key rq) (req_index rq) text in
  chapterCache st' !! req_key rq = Some c
  /\ (forall o t i, chapterKey t i = req_key rq ->
        generateChapterContent apiKey o t i st' = (st', Now c))
  /\ adapterCalls (req_key rq) st' = adapterCalls (req_key rq) st.
Proof.
  intros Hreach Hp Hres Hsettle Hrun c.
  pose proof (reachable_key_present _ _ _ Hreach Hp) as Hkey.
  assert (reachable apiKey st) as Hreach1.
  { apply (reachable_run _ [AdapterSettles p (Responded text)] st0); [done|].
    simpl. by rewrite Hsettle. }
  assert (chapterCache st !! req_key rq = Some c) as Hc.
  { rewrite (settle_pending _ _ _ _ Hp Hres) in Hsettle. injection Hsettle as <-.
    apply lookup_insert_eq. }
  destruct (run_cached _ _ _ _ _ (reachable_invariant _ _ Hreach1) Hc Hrun)
    as [Hc' Hcalls].
  split; [done|]. split; [|done].
  intros o t i Hti. apply generate_cached; [done|]. by rewrite Hti.
Qed.

(** C6 (as amended).  When the API call of a pending request fails, its key
    ends up neither cached nor in flight, and the next call of
    [generateChapterContent] for that key calls the API again.  When the API
    call succeeds with a response from which a chapter is built that the
    reader counts as a failed load, the chapter is cached all the same and
    the key leaves the in-flight map: whatever happens afterwards, every
    call of [generateChapterContent] for that key returns this chapter and
    the API is never called again for the key. *)
Theorem failed_fetch_retried_unless_cached p rq st :
  reachable apiKey st ->
  requests st !! p = Some rq -> req_result rq = None ->
  (forall e,
     exists st',
       settle p (Failed e) st = Some st'
       /\ chapterCache st' !! req_key rq = None
       /\ activeRequests st' !! req_key rq = None
       /\ forall o t i, chapterKey t i = req_key rq ->
            exists st'',
              generateChapterContent apiKey o t i st'
              = (st'', Owner (length (requests st')) i)
              /\ requests st''
                 = requests st' ++ [mkRequest (req_key rq) t i o None])
  /\ (forall text,
        let c := buildChapter (req_key rq) (req_index rq) text in
        Reader.attemptFailed (Fulfilled c) = true ->
        exists st',
          settle p (Responded text) st = Some st'
          /\ chapterCache st' !! req_key rq = Some c
          /\ activeRequests st' !! req_key rq = None
          /\ forall evs st'',
               run apiKey evs st' = Some st'' ->
               (forall o t i, chapterKey t i = req_key rq ->
                  generateChapterContent apiKey o t i st'' = (st'', Now c))
               /\ adapterCalls (req_key rq) st''
                  = adapterCalls (req_key rq) st').
Proof.
  intros Hreach Hp Hres.
  pose proof (reachable_key_present _ _ _ Hreach Hp) as Hkey.
  destruct (reachable_invariant _ _ Hreach) as [Hcoh _].
  destruct (pending_registered _ _ _ Hcoh Hp Hres) as [_ Hc].
  split.
  - intros e. eexists. split; [by apply settle_pending|].
    split; [done|]. split; [apply lookup_delete_eq|].
    intros o t i Hti. eexists. split.
    + apply generate_creates; [done|rewrite Hti..]; [done|apply lookup_delete_eq].
    + simpl. by rewrite Hti.
  - intros text c _. eexists. split; [by apply settle_pending|].
    split; [apply lookup_insert_eq|]. split; [apply lookup_delete_eq|].
    intros evs st'' Hrun.
    assert (reachable apiKey
              (resolveRequest p rq (requestContinuation rq (Responded text)).2
                 (runStatements (requestContinuation rq (Responded text)).1 st)))
      as Hreach1.
    { apply (reachable_run _ [AdapterSettles p (Responded text)] st); [done|].
      simpl. by rewrite (settle_pending _ _ _ _ Hp Hres). }
    destruct (run_cached (req_key rq) c evs _ st''
                (reachable_invariant _ _ Hreach1)) as [Hc' Hcalls]; [|done|].
    { apply lookup_insert_eq. }
    split; [|done].
    intros o t i Hti. apply generate_cached; [done|]. by rewrite Hti.
Qed.

End Coordinator.

(** ** The preload scheduler *)

Section Scheduler.

Variable apiKey : jsstring.

Lemma preloadChapter_skips t i st :
  is_Some (chapterCache st !! chapterKey t i)
  \/ is_Some (activeRequests st !! chapterKey t i) ->
  preloadChapter apiKey t i st = st.
Proof.
  intros H. unfold preloadChapter.
  destruct (bool_decide _ || bool_decide _) eqn:Hb; [done|].
  apply orb_false_iff in Hb as [H1%bool_decide_eq_false H2%bool_decide_eq_false].
  tauto.
Qed.

Lemma preloadChapter_enqueues t i st :
  chapterCache st !! chapterKey t i = None ->
  activeRequests st !! chapterKey t i = None ->
  preloadChapter apiKey t i st
  = processQueue apiKey
      (withPool (preloadQueue st ++ [(t, i)]) (activeWorkers st) (running st) st).
Proof.
  intros Hc Ha. unfold preloadChapter.
  destruct (bool_decide _ || bool_decide _) eqn:Hb; [|done].
  apply orb_true_iff in Hb as [[c H]%bool_decide_eq_true|[p H]%bool_decide_eq_true];
    congruence.
Qed.

Lemma processQueue_full st :
  CONCURRENCY_LIMIT <= activeWorkers st -> processQueue apiKey st = st.
Proof.
  intros Hfull. unfold processQueue. destruct (preloadQueue st); [done|].
  apply Z.leb_le in Hfull. by rewrite Hfull.
Qed.

(** C7 (as amended).  A preload for a key that is cached or in flight is
    skipped entirely.  For a key that is neither, with the API key present:
    when fewer than three workers are active the first [preloadChapter]
    starts its task at once, which registers the key as in flight, so that
    a second [preloadChapter] right after it is skipped and one task exists
    for the key; when three workers are active the first task stays in the
    queue, the queue is not consulted by the second call, and both calls
    leave a task for the key in the queue. *)
Theorem preload_twice t i st :
  reachable apiKey st ->
  let k := chapterKey t i in
  let once := preloadChapter apiKey t i st in
  let twice := preloadChapter apiKey t i once in
  (is_Some (chapterCache st !! k) \/ is_Some (activeRequests st !! k) ->
   once = st)
  /\ (apiKeyMissing apiKey = false ->
      chapterCache st !! k = None -> activeRequests st !! k = None ->
      (activeWorkers st < CONCURRENCY_LIMIT ->
       preloadQueue once = []
       /\ running once = running st ++ [Owner (length (requests st)) i]
       /\ requests once = requests st ++ [mkRequest k t i Preload None]
       /\ twice = once)
      /\ (CONCURRENCY_LIMIT <= activeWorkers st ->
          preloadQueue once = preloadQueue st ++ [(t, i)]
          /\ preloadQueue twice = preloadQueue st ++ [(t, i); (t, i)]
          /\ running twice = running st
          /\ requests twice = requests st)).
Proof.
  intros Hreach k once twice. split; [apply preloadChapter_skips|].
  intros Hkey Hc Ha.
  destruct (reachable_invariant _ _ Hreach) as [_ Hpool].
  assert (once = processQueue apiKey
                   (withPool (preloadQueue st ++ [(t, i)]) (activeWorkers st)
                      (running st) st)) as Honce
    by (by apply preloadChapter_enqueues).
  split.
  - intros Hfree.
    assert (preloadQueue st = []) as Hq.
    { destruct (preloadQueue st) eqn:Hq; [done|].
      assert (CONCURRENCY_LIMIT <= activeWorkers st); [|lia].
      apply (pool_queue _ Hpool). by rewrite Hq. }
    assert (once = withPool [] (activeWorkers st + 1)
                     (running st ++ [Owner (length (requests st)) i])
                     (activeSet k (length (requests st))
                        (withRequests
                           (requests st ++ [mkRequest k t i Preload None]) st)))
      as Hst1.
    { rewrite Honce. unfold processQueue. simpl. rewrite Hq. simpl.
      apply Z.leb_gt in Hfree. rewrite Hfree.
      by rewrite generate_creates. }
    subst twice. rewrite Hst1. repeat split; try done.
    apply preloadChapter_skips. right. simpl. rewrite lookup_insert_eq. eauto.
  - intros Hfull.
    subst twice. rewrite Honce, processQueue_full by done.
    rewrite preloadChapter_enqueues, processQueue_full by done. simpl.
    by rewrite <- app_assoc.
Qed.

(** C8.  In every reachable state at most three API calls made by preload
    tasks are pending, however long the queue.  A foreground call of
    [generateChapterContent] does not look at the pool: it behaves the same
    whatever the queue, the counter and the started tasks are. *)
Theorem preload_calls_bounded st :
  reachable apiKey st ->
  Z.of_nat (length (preloadCallsInFlight st)) <= CONCURRENCY_LIMIT
  /\ CONCURRENCY_LIMIT = 3
  /\ forall t i q w hs,
       generateChapterContent apiKey Foreground t i (withPool q w hs st)
       = (withPool q w hs (generateChapterContent apiKey Foreground t i st).1,
          (generateChapterContent apiKey Foreground t i st).2).
Proof.
  intros Hreach. destruct (reachable_invariant _ _ Hreach) as [_ Hpool].
  split; [|split; [done|]].
  - pose proof (owned_requests_le _ _ (pool_owner _ Hpool)) as Hle.
    pose proof (pool_count _ Hpool). pose proof (pool_limit _ Hpool).
    unfold preloadCallsInFlight. lia.
  - intros t i q w hs. unfold generateChapterContent. simpl.
    destruct (apiKeyMissing apiKey); [done|].
    destruct (chapterCache st !! chapterKey t i); [done|].
    by destruct (activeRequests st !! chapterKey t i).
Qed.

End Scheduler.

(** ** The missing API key *)

(** C10.  Without an API key [generateChapterContent] returns, for every
    input and in every state, the fixed chapter with id [error] and number 1,
    already resolved, leaving the cache, the in-flight map and the request
    log as they are; [searchNovels] and [getRankings] return the empty list
    without sending a request. *)
Theorem missing_key_short_circuits :
  (forall o t i st,
     generateChapterContent [] o t i st
     = (st, Now (Chapter.mk (js "error") (js "Error")
                   (js "API Key missing or error.") 1)))
  /\ (forall Item query, Listing.searchNovels [] Item query = Listing.Returned [])
  /\ (forall Item category, Listing.getRankings [] Item category = Listing.Returned []).
Proof. done. Qed.

(** ** The reader's retry loop *)

Section Retry.

Import Reader.

Variable novelTitle : jsstring.
Variable sourceName : option jsstring.

Lemma loadChapterSettled_failed closure r cur :
  attemptFailed r = true ->
  loadChapterSettled closure r cur = finallyBlock closure (catchBlock closure cur).
Proof.
  intros Hr. unfold loadChapterSettled. destruct r as [data|e]; [|done].
  simpl in Hr. by rewrite Hr.
Qed.

Lemma session_cons r rest st :
  session novelTitle (r :: rest) st
  = let st' := loadChapterSettled st r (setLoading true st) in
    if retryCount st' =? retryCount st then (st', effectActions novelTitle st)
    else
      let '(final, acts) := session novelTitle rest st' in
      (final, effectActions novelTitle st ++ acts).
Proof. done. Qed.

(** The state after a failed attempt that is followed by a retry. *)
Lemma failed_attempt_state st r :
  attemptFailed r = true -> retryCount st < 3 ->
  loadChapterSettled st r (setLoading true st)
  = mkReader (chapterIndex st) (chapter st)
      (negb (negb (isAutoSwitching st)
             && match chapter st with Some _ => true | None => false end))
      (js "备用线路 " ++ ofZ (retryCount st + 1)) (retryCount st + 1) true.
Proof.
  intros Hr Hlt. rewrite loadChapterSettled_failed by done.
  unfold finallyBlock, catchBlock.
  apply Z.ltb_lt in Hlt as Hlt'. rewrite Hlt'.
  assert ((3 <=? retryCount st) = false) as -> by (apply Z.leb_gt; lia).
  simpl. by destruct (negb (isAutoSwitching st) && _).
Qed.

(** A failed call of a [loadChapter] that has captured a [retryCount] below
    3: the [catch] block counts from the current state and labels from the
    captured value; the [finally] block resets [loading] when the call has
    captured a chapter and no switching of source. *)
Lemma retry_scheduled closure r cur :
  attemptFailed r = true -> retryCount closure < 3 ->
  loadChapterSettled closure r cur
  = mkReader (chapterIndex cur) (chapter cur)
      (loading cur
       && negb (negb (isAutoSwitching closure)
                && match chapter closure with Some _ => true | None => false end))
      (js "备用线路 " ++ ofZ (retryCount closure + 1)) (retryCount cur + 1) true.
Proof.
  intros Hr Hlt. rewrite loadChapterSettled_failed by done.
  unfold finallyBlock, catchBlock.
  apply Z.ltb_lt in Hlt as Hlt'. rewrite Hlt'.
  assert ((3 <=? retryCount closure) = false) as -> by (apply Z.leb_gt; lia).
  simpl. destruct (negb (isAutoSwitching closure) && _); simpl;
    by rewrite ?andb_false_r, ?andb_true_r.
Qed.

(** A failed call of a [loadChapter] that has captured a [retryCount] of 3
    or more. *)
Lemma retries_exhausted closure r cur :
  attemptFailed r = true -> 3 <= retryCount closure ->
  loadChapterSettled closure r cur
  = mkReader (chapterIndex cur) None false (currentSourceName cur)
      (retryCount cur) false.
Proof.
  intros Hr Hge. rewrite loadChapterSettled_failed by done.
  unfold finallyBlock, catchBlock.
  assert ((retryCount closure <? 3) = false) as -> by (apply Z.ltb_ge; lia).
  assert ((3 <=? retryCount closure) = true) as -> by (by apply Z.leb_le).
  done.
Qed.

Lemma commit_retry prev render ls tr :
  chapterIndex render = chapterIndex prev ->
  retryCount render <> retryCount prev ->
  Component.commit novelTitle sourceName prev render ls tr
  = Component.mk (setLoading true render) (ls ++ [render])
      (tr ++ effectActions novelTitle render).
Proof.
  intros Hidx Hcount. unfold Component.commit.
  rewrite Hidx, Z.eqb_refl. simpl.
  by apply Z.eqb_neq in Hcount as ->.
Qed.

Lemma commit_idle prev render ls tr :
  chapterIndex render = chapterIndex prev ->
  retryCount render = retryCount prev ->
  Component.commit novelTitle sourceName prev render ls tr
  = Component.mk render ls tr.
Proof.
  intros Hidx Hcount. unfold Component.commit.
  by rewrite Hidx, Hcount, !Z.eqb_refl.
Qed.

(** The actions of a retry. *)
Lemma retry_actions st :
  isAutoSwitching st = true -> 0 < retryCount st ->
  effectActions novelTitle st = [Delay 1500; Fetch novelTitle (chapterIndex st)].
Proof.
  intros Hauto Hpos. unfold effectActions. rewrite Hauto.
  assert ((0 <? retryCount st) = true) as -> by (by apply Z.ltb_lt).
  assert ((retryCount st =? 0) = false) as -> by (apply Z.eqb_neq; lia).
  done.
Qed.

(** Every run of the load effect makes one call. *)
Lemma one_call_per_run st : fetchCount (effectActions novelTitle st) = 1%nat.
Proof.
  unfold effectActions, fetchCount.
  by destruct (isAutoSwitching st), (0 <? retryCount st), (retryCount st =? 0).
Qed.





(** A failure of the only unfinished [loadChapter], with fewer than three
    retries made. *)
Lemma sole_load_retried c closure r :
  Component.loads c = [closure] ->
  retryCount closure = retryCount (Component.state c) ->
  0 <= retryCount closure < 3 ->
  attemptFailed r = true ->
  exists c' closure',
    Component.step novelTitle sourceName (Component.Settles 0 r) c = Some c'
    /\ Component.loads c' = [closure']
    /\ retryCount closure' = retryCount closure + 1
    /\ retryCount (Component.state c') = retryCount closure + 1
    /\ isAutoSwitching (Component.state c') = true
    /\ chapterIndex (Component.state c') = chapterIndex (Component.state c)
    /\ Component.trace c'
       = Component.trace c
         ++ [Delay 1500; Fetch novelTitle (chapterIndex (Component.state c))].
Proof.
  intros Hloads Hsame Hcount Hr.
  simpl. rewrite Hloads. simpl.
  rewrite (retry_scheduled closure r _ Hr) by lia.
  rewrite (commit_retry (Component.state c)); [|done|simpl; lia].
  rewrite retry_actions; [|done|simpl; lia].
  do 2 eexists. split; [reflexivity|]. simpl. rewrite Hsame.
  split_and!; done.
Qed.

(** C3 (as amended).  A session is opened with one [loadChapter] running
    and [retryCount] 0 by the first render, and by a click on a navigation
    button that changes the chapter while no [loadChapter] is unfinished and
    [retryCount] is 0.  In a session opened in this way, as long as the user
    does not navigate, the reader makes the first attempt and up to three
    automatic retries.  After three consecutive failures [retryCount] is 3,
    the reader is still switching source and not in final failure, and a
    fourth call of [generateChapterContent] has been issued: the call of the
    opening run followed by three retries.  After the fourth consecutive
    failure the reader shows the failure panel ([chapter] null, not loading,
    not switching), no fifth call has been issued and no [loadChapter] is
    left that could issue one. *)
Theorem final_failure_after_four_failures :
  (forall idx,
     let c := Component.mounted novelTitle sourceName idx in
     Component.loads c = [mount idx sourceName]
     /\ retryCount (mount idx sourceName) = 0
     /\ retryCount (Component.state c) = 0
     /\ Component.trace c = effectActions novelTitle (mount idx sourceName))
  /\ (forall c k,
        Component.loads c = [] -> retryCount (Component.state c) = 0 ->
        Navigation.click k (chapterIndex (Component.state c))
        <> chapterIndex (Component.state c) ->
        exists c' closure,
          Component.step novelTitle sourceName (Component.Clicks k) c = Some c'
          /\ Component.loads c' = [closure]
          /\ retryCount closure = 0
          /\ chapterIndex closure
             = Navigation.click k (chapterIndex (Component.state c))
          /\ retryCount (Component.state c') = 0
          /\ chapterIndex (Component.state c') = chapterIndex closure
          /\ Component.trace c'
             = Component.trace c ++ effectActions novelTitle closure)
  /\ (forall c closure r1 r2 r3 r4,
        Component.loads c = [closure] ->
        retryCount closure = 0 -> retryCount (Component.state c) = 0 ->
        attemptFailed r1 = true -> attemptFailed r2 = true ->
        attemptFailed r3 = true -> attemptFailed r4 = true ->
        fetchCount (effectActions novelTitle closure) = 1%nat
        /\ exists c3 fourth c4,
             Component.run novelTitle sourceName
               [Component.Settles 0 r1; Component.Settles 0 r2;
                Component.Settles 0 r3] c = Some c3
             /\ retryCount (Component.state c3) = 3
             /\ isAutoSwitching (Component.state c3) = true
             /\ ~ finalFailure (Component.state c3)
             /\ Component.loads c3 = [fourth]
             /\ retryCount fourth = 3
             /\ Component.trace c3
                = Component.trace c
                  ++ concat (replicate 3
                       [Delay 1500;
                        Fetch novelTitle (chapterIndex (Component.state c))])
             /\ Component.step novelTitle sourceName (Component.Settles 0 r4) c3
                = Some c4
             /\ finalFailure (Component.state c4)
             /\ retryCount (Component.state c4) = 3
             /\ Component.loads c4 = []
             /\ Component.trace c4 = Component.trace c3
             /\ forall i r,
                  Component.step novelTitle sourceName (Component.Settles i r) c4
                  = None).
Proof.
  split_and!.
  - intros idx c. subst c. by split_and!.
  - intros c k Hloads Hcount Hmove.
    do 2 eexists. split; [reflexivity|].
    simpl. unfold Component.commit.
    assert ((chapterIndex
               (Component.setChapterIndex (Navigation.click k) (Component.state c))
             =? chapterIndex (Component.state c)) = false) as ->
      by (by apply Z.eqb_neq).
    simpl. rewrite Hcount, Hloads. simpl. done.
  - intros c closure r1 r2 r3 r4 Hloads Hcl Hcur H1 H2 H3 H4.
    split; [apply one_call_per_run|].
    destruct (sole_load_retried c closure r1)
      as (c1 & cl1 & Hs1 & Hl1 & Hn1 & Hm1 & _ & Hi1 & Ht1);
      [done|congruence|lia|done|].
    destruct (sole_load_retried c1 cl1 r2)
      as (c2 & cl2 & Hs2 & Hl2 & Hn2 & Hm2 & _ & Hi2 & Ht2);
      [done|congruence|lia|done|].
    destruct (sole_load_retried c2 cl2 r3)
      as (c3 & cl3 & Hs3 & Hl3 & Hn3 & Hm3 & Ha3 & Hi3 & Ht3);
      [done|congruence|lia|done|].
    exists c3, cl3. eexists.
    split; [cbn [Component.run]; by rewrite Hs1, Hs2, Hs3|].
    split; [lia|]. split; [done|].
    split; [intros (_ & _ & ?); congruence|].
    split; [done|]. split; [lia|].
    split.
    { rewrite Ht3, Ht2, Ht1, Hi2, Hi1. simpl. by rewrite <- !app_assoc. }
    simpl. rewrite Hl3. simpl.
    rewrite (retries_exhausted cl3 r4 _ H4) by lia.
    rewrite commit_idle by done. split; [reflexivity|]. simpl.
    split; [done|]. split; [lia|]. split; [done|]. split; [done|].
    done.
Qed.

End Retry.

(** ** Concrete executions *)

Lemma oneCall_reachable : reachable Sample.apiKey Sample.oneCall.
Proof. by exists [CallGenerate Sample.novelA 0]. Qed.

Lemma readerOpened_reachable : reachable Sample.apiKey Sample.readerOpened.
Proof.
  exists [CallGenerate Sample.novelA 0; CallPreload Sample.novelA 1;
          CallPreload Sample.novelA 2; CallPreload Sample.novelA 3;
          CallPreload Sample.novelA 4; CallPreload Sample.novelA 5].
  vm_compute. reflexivity.
Qed.

(** Three callers ask for chapter 0 of the sample novel on a fresh module. *)
Lemma concurrent_fetch_one_call_witness :
  reachable Sample.apiKey initial
  /\ apiKeyMissing Sample.apiKey = false
  /\ chapterCache initial !! chapterKey Sample.novelA 0 = None
  /\ activeRequests initial !! chapterKey Sample.novelA 0 = None
  /\ exists st1,
       concurrentCalls Sample.apiKey 3 Sample.novelA 0 initial
       = (st1, [Owner 0 0; Joined 0; Joined 0])
       /\ length (requests st1) = 1%nat.
Proof.
  split; [by exists []|].
  split; [reflexivity|]. split; [reflexivity|]. split; [reflexivity|].
  destruct (concurrent_fetch_one_call Sample.apiKey 2 Sample.novelA 0 initial)
    as (st1 & H1 & H2 & _); [by exists []|reflexivity..|].
  exists st1. split; [exact H1|]. rewrite H2. reflexivity.
Defined.

(** Two callers, the API call fails: the creator of the request is fulfilled
    with the failure chapter and the joined caller is rejected, so the two
    do not observe the same outcome. *)
Lemma creator_fulfilled_joiner_rejected :
  exists st1 st2 h1 h2,
    concurrentCalls Sample.apiKey 2 Sample.novelA 0 initial = (st1, [h1; h2])
    /\ settle 0 (Failed Sample.quota) st1 = Some st2
    /\ length (adapterCalls (chapterKey Sample.novelA 0) st2) = 1%nat
    /\ observe st2 h1 = Some (Fulfilled (failedChapter 0))
    /\ observe st2 h2 = Some (Rejected Sample.quota)
    /\ observe st2 h1 <> observe st2 h2.
Proof.
  do 4 eexists. split; [reflexivity|]. split; [reflexivity|].
  split; [by vm_compute|]. split; [reflexivity|]. split; [reflexivity|].
  by vm_compute.
Qed.

(** The pending call of [Sample.oneCall] succeeds with a body of 10 code
    units. *)
Lemma success_is_cached_unvalidated_witness :
  exists rq,
    requests Sample.oneCall !! 0%nat = Some rq
    /\ req_result rq = None
    /\ settle 0 (Responded (Some Sample.shortText)) Sample.oneCall
       = Some Sample.afterSuccess
    /\ exists c,
         chapterCache Sample.afterSuccess !! req_key rq = Some c
         /\ len (Chapter.content c) = 10
         /\ Reader.attemptFailed (Fulfilled c) = true.
Proof.
  eexists. split; [reflexivity|]. split; [reflexivity|].
  split; [by vm_compute|].
  destruct (success_is_cached_unvalidated 0
              (mkRequest (chapterKey Sample.novelA 0) Sample.novelA 0 Foreground None)
              (Some Sample.shortText) Sample.oneCall)
    as (st' & Hsettle & Hcache & _ & _ & _ & Hreader); [reflexivity..|].
  eexists. split; [|split; [|apply Hreader]]; by vm_compute.
Defined.

(** The scenario of a response with a body of length 10: the chapter is
    cached and the joined caller is fulfilled with it, not rejected. *)
Lemma short_body_is_cached_and_delivered :
  exists st1 st2 c,
    concurrentCalls Sample.apiKey 2 Sample.novelA 0 initial
    = (st1, [Owner 0 0; Joined 0])
    /\ settle 0 (Responded (Some Sample.shortText)) st1 = Some st2
    /\ chapterCache st2 !! chapterKey Sample.novelA 0 = Some c
    /\ len (Chapter.content c) = 10
    /\ observe st2 (Joined 0) = Some (Fulfilled c)
    /\ observe st2 (Owner 0 0) = Some (Fulfilled c).
Proof.
  do 3 eexists. split; [reflexivity|]. split; [reflexivity|].
  split; [by vm_compute|]. split; [by vm_compute|]. split; by vm_compute.
Qed.

(** Four rejections in a row after the reader has been opened on chapter 0
    of the sample novel, and four rejections in a row after the user has
    moved on from a chapter shown at the first attempt. *)
Lemma final_failure_after_four_failures_witness :
  Component.loads Tour.opened = [Reader.mount 0 None]
  /\ Reader.retryCount (Reader.mount 0 None) = 0
  /\ Reader.retryCount (Component.state Tour.opened) = 0
  /\ Reader.attemptFailed Sample.rejected = true
  /\ (exists c3 c4,
        Component.run Sample.novelA None
          [Component.Settles 0 Sample.rejected; Component.Settles 0 Sample.rejected;
           Component.Settles 0 Sample.rejected] Tour.opened = Some c3
        /\ Reader.retryCount (Component.state c3) = 3
        /\ Component.step Sample.novelA None
             (Component.Settles 0 Sample.rejected) c3 = Some c4
        /\ Reader.finalFailure (Component.state c4)
        /\ Component.loads c4 = []
        /\ Component.trace c4 = Component.trace c3)
  /\ Component.loads Tour.shown = []
  /\ Reader.retryCount (Component.state Tour.shown) = 0
  /\ Reader.chapterIndex (Component.state Tour.shown) = 0
  /\ Navigation.click Navigation.Next 0 = 1
  /\ exists c0 c3 c4,
       Component.step Sample.novelA None (Component.Clicks Navigation.Next)
         Tour.shown = Some c0
       /\ Component.run Sample.novelA None
            [Component.Settles 0 Sample.rejected; Component.Settles 0 Sample.rejected;
             Component.Settles 0 Sample.rejected] c0 = Some c3
       /\ Component.step Sample.novelA None
            (Component.Settles 0 Sample.rejected) c3 = Some c4
       /\ Reader.finalFailure (Component.state c4)
       /\ Component.loads c4 = []
       /\ Component.trace c4
          = Component.trace c0
            ++ concat (replicate 3
                 [Reader.Delay 1500; Reader.Fetch Sample.novelA 1]).
Proof.
  split; [reflexivity|]. split; [reflexivity|]. split; [reflexivity|].
  split; [reflexivity|].
  destruct (final_failure_after_four_failures Sample.novelA None)
    as (_ & Hclick & Hsession).
  split.
  { destruct (Hsession Tour.opened (Reader.mount 0 None)
                Sample.rejected Sample.rejected Sample.rejected Sample.rejected)
      as (_ & c3 & fourth & c4 & Hrun & Hcount & _ & _ & _ & _ & _
          & Hstep & Hfinal & _ & Hloads & Htrace & _); [reflexivity..|].
    exists c3, c4. split_and!; assumption. }
  split; [reflexivity|]. split; [reflexivity|]. split; [reflexivity|].
  split; [reflexivity|].
  destruct (Hclick Tour.shown Navigation.Next)
    as (c0 & closure & Hstep0 & Hloads0 & Hcl0 & Hidx0 & Hcur0 & Hidx0' & _);
    [reflexivity|reflexivity|by vm_compute|].
  destruct (Hsession c0 closure
              Sample.rejected Sample.rejected Sample.rejected Sample.rejected)
    as (_ & c3 & fourth & c4 & Hrun & _ & _ & _ & _ & _ & Htrace3
        & Hstep & Hfinal & _ & Hloads & Htrace & _);
    [assumption|assumption|assumption|reflexivity..|].
  exists c0, c3, c4. split_and!; try assumption.
  rewrite Htrace, Htrace3, Hidx0', Hidx0. reflexivity.
Defined.

(** After three consecutive failures a fourth call has been issued and the
    reader is still switching source, not in final failure. *)
Lemma fourth_attempt_after_three_failures :
  Reader.fetchCount
    (Reader.session Sample.novelA
       [Sample.rejected; Sample.rejected; Sample.rejected]
       (Reader.mount 0 None)).2 = 4%nat
  /\ Reader.isAutoSwitching
       (Reader.session Sample.novelA
          [Sample.rejected; Sample.rejected; Sample.rejected]
          (Reader.mount 0 None)).1 = true
  /\ Reader.retryCount
       (Reader.session Sample.novelA
          [Sample.rejected; Sample.rejected; Sample.rejected]
          (Reader.mount 0 None)).1 = 3
  /\ Reader.session Sample.novelA
       [Sample.rejected; Sample.rejected; Sample.rejected]
       (Reader.mount 0 None)
     = (Reader.mkReader 0 None true (js "备用线路 3") 3 true,
        [Reader.ScrollToTop; Reader.Fetch Sample.novelA 0;
         Reader.PreloadNext Sample.novelA 1; Reader.PreloadNext Sample.novelA 2;
         Reader.PreloadNext Sample.novelA 3; Reader.PreloadNext Sample.novelA 4;
         Reader.PreloadNext Sample.novelA 5;
         Reader.Delay 1500; Reader.Fetch Sample.novelA 0;
         Reader.Delay 1500; Reader.Fetch Sample.novelA 0;
         Reader.Delay 1500; Reader.Fetch Sample.novelA 0]).
Proof. split_and!; by vm_compute. Qed.

(** The pending call of [Sample.oneCall]. *)
Lemma cache_and_in_flight_disjoint_witness :
  reachable Sample.apiKey Sample.oneCall
  /\ inAtMostOne (chapterKey Sample.novelA 0) Sample.oneCall
  /\ inAtMostOne (chapterKey Sample.novelA 0) Sample.afterSuccess.
Proof.
  split; [by exists [CallGenerate Sample.novelA 0]|].
  destruct (cache_and_in_flight_disjoint Sample.apiKey Sample.oneCall)
    as [Hone Hsettle]; [by exists [CallGenerate Sample.novelA 0]|].
  split; [apply Hone|].
  destruct (Hsettle 0%nat
              (mkRequest (chapterKey Sample.novelA 0) Sample.novelA 0 Foreground None)
              (Responded (Some Sample.shortText)))
    as (st' & Hst' & _ & Hone' & _); [reflexivity..|].
  replace Sample.afterSuccess with st'; [apply Hone'|].
  unfold Sample.afterSuccess. by rewrite Hst'.
Defined.

(** While the continuation of a successful call runs, right after
    [chapterCache.set] and before [activeRequests.delete], the key is in both
    maps: the cache is updated before the key leaves the in-flight map. *)
Lemma cached_while_still_in_flight :
  exists rq mid,
    requests Sample.oneCall !! 0%nat = Some rq
    /\ instants (requestContinuation rq (Responded (Some Sample.shortText))).1
         Sample.oneCall !! 0%nat = Some mid
    /\ is_Some (chapterCache mid !! req_key rq)
    /\ is_Some (activeRequests mid !! req_key rq)
    /\ chapterCache Sample.oneCall !! req_key rq = None.
Proof.
  do 2 eexists. split; [reflexivity|]. split; [reflexivity|].
  split; [by vm_compute; eauto|]. split; [by vm_compute; eauto|]. by vm_compute.
Qed.

(** After the success of [Sample.afterSuccess], a foreground call and a
    preload for the same chapter. *)
Lemma successful_fetch_is_final_witness :
  reachable Sample.apiKey Sample.oneCall
  /\ (exists rq,
        requests Sample.oneCall !! 0%nat = Some rq /\ req_result rq = None)
  /\ settle 0 (Responded (Some Sample.shortText)) Sample.oneCall
     = Some Sample.afterSuccess
  /\ run Sample.apiKey
       [CallGenerate Sample.novelA 0; CallPreload Sample.novelA 0]
       Sample.afterSuccess = Some Sample.afterSuccess
  /\ generateChapterContent Sample.apiKey Foreground Sample.novelA 0
       Sample.afterSuccess
     = (Sample.afterSuccess,
        Now (buildChapter (chapterKey Sample.novelA 0) 0 (Some Sample.shortText)))
  /\ length (adapterCalls (chapterKey Sample.novelA 0) Sample.afterSuccess) = 1%nat.
Proof.
  split; [by exists [CallGenerate Sample.novelA 0]|].
  split; [by eexists|]. split; [by vm_compute|]. split; [by vm_compute|].
  destruct (successful_fetch_is_final Sample.apiKey 0
              (mkRequest (chapterKey Sample.novelA 0) Sample.novelA 0 Foreground None)
              (Some Sample.shortText) Sample.oneCall Sample.afterSuccess
              [CallGenerate Sample.novelA 0; CallPreload Sample.novelA 0]
              Sample.afterSuccess)
    as (_ & Hgen & _);
    [by exists [CallGenerate Sample.novelA 0]|reflexivity|reflexivity
    |by vm_compute|by vm_compute|].
  split; [by apply Hgen|by vm_compute].
Defined.

(** The pending call of [Sample.oneCall] fails, and the chapter is asked
    for again; had it been answered with [Sample.shortText], the chapter
    would have been cached. *)
Lemma failed_fetch_retried_unless_cached_witness :
  reachable Sample.apiKey Sample.oneCall
  /\ (exists rq,
        requests Sample.oneCall !! 0%nat = Some rq /\ req_result rq = None)
  /\ (exists st',
        settle 0 (Failed Sample.quota) Sample.oneCall = Some st'
        /\ chapterCache st' !! chapterKey Sample.novelA 0 = None
        /\ activeRequests st' !! chapterKey Sample.novelA 0 = None
        /\ exists st'',
             generateChapterContent Sample.apiKey Foreground Sample.novelA 0 st'
             = (st'', Owner (length (requests st')) 0)
             /\ length (requests st'') = S (length (requests st')))
  /\ Reader.attemptFailed
       (Fulfilled (buildChapter (chapterKey Sample.novelA 0) 0
                     (Some Sample.shortText))) = true
  /\ exists st',
       settle 0 (Responded (Some Sample.shortText)) Sample.oneCall = Some st'
       /\ activeRequests st' !! chapterKey Sample.novelA 0 = None
       /\ generateChapterContent Sample.apiKey Foreground Sample.novelA 0 st'
          = (st', Now (buildChapter (chapterKey Sample.novelA 0) 0
                         (Some Sample.shortText))).
Proof.
  split; [by exists [CallGenerate Sample.novelA 0]|].
  split; [by eexists|].
  destruct (failed_fetch_retried_unless_cached Sample.apiKey 0
              (mkRequest (chapterKey Sample.novelA 0) Sample.novelA 0 Foreground None)
              Sample.oneCall)
    as [Hfailed Hshort];
    [by exists [CallGenerate Sample.novelA 0]|reflexivity|reflexivity|].
  split.
  - destruct (Hfailed Sample.quota) as (st' & Hsettle & Hc & Ha & Hagain).
    exists st'. split; [exact Hsettle|]. split; [exact Hc|]. split; [exact Ha|].
    destruct (Hagain Foreground Sample.novelA 0 eq_refl) as (st'' & Hgen & Hreqs).
    exists st''. split; [exact Hgen|].
    rewrite Hreqs, length_app. simpl. lia.
  - split; [by vm_compute|].
    destruct (Hshort (Some Sample.shortText)) as (st' & Hsettle & _ & Ha & Hlater);
      [by vm_compute|].
    exists st'. split; [exact Hsettle|]. split; [exact Ha|].
    destruct (Hlater [] st' eq_refl) as [Hgen _].
    by apply Hgen.
Defined.

(** The scenario of a response whose body has 10 code units: the reader
    counts a failed load, but the key is left cached, and the next call for
    it returns the cached chapter and calls the API no more. *)
Lemma short_body_never_fetched_again :
  exists c,
    settle 0 (Responded (Some Sample.shortText)) Sample.oneCall
    = Some Sample.afterSuccess
    /\ len (Chapter.content c) = 10
    /\ Reader.attemptFailed (Fulfilled c) = true
    /\ chapterCache Sample.afterSuccess !! chapterKey Sample.novelA 0 = Some c
    /\ generateChapterContent Sample.apiKey Foreground Sample.novelA 0
         Sample.afterSuccess
       = (Sample.afterSuccess, Now c)
    /\ length (adapterCalls (chapterKey Sample.novelA 0) Sample.afterSuccess)
       = 1%nat.
Proof.
  exists (buildChapter (chapterKey Sample.novelA 0) 0 (Some Sample.shortText)).
  split_and!; by vm_compute.
Qed.

(** With the pool full, two calls in a row for chapter 6. *)
Lemma preload_twice_witness :
  reachable Sample.apiKey Sample.readerOpened
  /\ preloadQueue
       (preloadChapter Sample.apiKey Sample.novelA 6
          (preloadChapter Sample.apiKey Sample.novelA 6 Sample.readerOpened))
     = preloadQueue Sample.readerOpened ++ [(Sample.novelA, 6); (Sample.novelA, 6)]
  /\ preloadChapter Sample.apiKey Sample.novelA 1 Sample.readerOpened
     = Sample.readerOpened.
Proof.
  split; [apply readerOpened_reachable|].
  destruct (preload_twice Sample.apiKey Sample.novelA 6 Sample.readerOpened
              readerOpened_reachable) as [_ Hfresh].
  destruct (preload_twice Sample.apiKey Sample.novelA 1 Sample.readerOpened
              readerOpened_reachable) as [Hskip _].
  split.
  - destruct Hfresh as [_ Hfull]; [by vm_compute..|].
    apply Hfull. by vm_compute.
  - apply Hskip. right. by vm_compute; eauto.
Defined.

(** The reader has just been opened, so that the three workers are busy and
    two tasks wait: two preloads of chapter 6 in a row leave two tasks for
    chapter 6 in the queue. *)
Lemma duplicate_tasks_when_pool_is_full :
  activeWorkers Sample.readerOpened = 3
  /\ preloadQueue Sample.readerOpened = [(Sample.novelA, 4); (Sample.novelA, 5)]
  /\ chapterCache Sample.readerOpened !! chapterKey Sample.novelA 6 = None
  /\ activeRequests Sample.readerOpened !! chapterKey Sample.novelA 6 = None
  /\ preloadQueue
       (preloadChapter Sample.apiKey Sample.novelA 6
          (preloadChapter Sample.apiKey Sample.novelA 6 Sample.readerOpened))
     = [(Sample.novelA, 4); (Sample.novelA, 5);
        (Sample.novelA, 6); (Sample.novelA, 6)].
Proof. split_and!; by vm_compute. Qed.

(** With the reader open, three preload calls and one foreground call are
    pending at once. *)
Lemma preload_calls_bounded_witness :
  reachable Sample.apiKey Sample.readerOpened
  /\ Z.of_nat (length (preloadCallsInFlight Sample.readerOpened)) <= CONCURRENCY_LIMIT
  /\ length (preloadCallsInFlight Sample.readerOpened) = 3%nat
  /\ length (filter (fun rq => req_result rq = None) (requests Sample.readerOpened))
     = 4%nat.
Proof.
  split; [apply readerOpened_reachable|].
  split; [apply (preload_calls_bounded Sample.apiKey), readerOpened_reachable|].
  split; by vm_compute.
Defined.



(** * Further properties of the code *)

(** ** Keys *)

(** The digits of a number are never the hyphen, and determine it. *)
Lemma js_string_of_uint_no_hyphen d : 45%N ∉ js (NilEmpty.string_of_uint d).
Proof.
  unfold js. induction d; simpl; [apply not_elem_of_nil|..];
    (rewrite not_elem_of_cons; split; [done|exact IHd]).
Qed.

Lemma js_string_of_uint_inj d d' :
  js (NilEmpty.string_of_uint d) = js (NilEmpty.string_of_uint d') -> d = d'.
Proof.
  unfold js. revert d'. induction d; destruct d'; simpl; intros H;
    try done; injection H as H; f_equal; by apply IHd.
Qed.

Lemma NilZero_string_of_uint_nonnil d :
  d <> Decimal.Nil -> NilZero.string_of_uint d = NilEmpty.string_of_uint d.
Proof. by destruct d. Qed.

(** [String(n)] is an optional hyphen followed by the digits of [|n|]. *)
Lemma ofZ_shape n :
  exists d, d <> Decimal.Nil
    /\ Z.to_int n = (if n <? 0 then Decimal.Neg d else Decimal.Pos d)
    /\ ofZ n = (if n <? 0 then [45%N] else []) ++ js (NilEmpty.string_of_uint d).
Proof.
  destruct n as [|p|p]; simpl.
  - exists (Decimal.D0 Decimal.Nil). done.
  - exists (Pos.to_uint p). pose proof (DecimalPos.Unsigned.to_uint_nonnil p) as Hp.
    split; [done|]. split; [done|].
    unfold ofZ. simpl. by rewrite NilZero_string_of_uint_nonnil.
  - exists (Pos.to_uint p). pose proof (DecimalPos.Unsigned.to_uint_nonnil p) as Hp.
    split; [done|]. split; [done|].
    unfold ofZ. simpl. rewrite NilZero_string_of_uint_nonnil by done.
    done.
Qed.

Lemma ofZ_inj n m : ofZ n = ofZ m -> n = m.
Proof.
  intros H.
  destruct (ofZ_shape n) as (d & Hd & Hn & Hsn).
  destruct (ofZ_shape m) as (d' & Hd' & Hm & Hsm).
  rewrite Hsn, Hsm in H. apply DecimalZ.to_int_inj. rewrite Hn, Hm.
  assert (forall u, u <> Decimal.Nil ->
            exists c r, js (NilEmpty.string_of_uint u) = c :: r /\ c <> 45%N)
    as Hhead.
  { intros u Hu. pose proof (js_string_of_uint_no_hyphen u) as Hno.
    destruct (js (NilEmpty.string_of_uint u)) as [|c r] eqn:Hs.
    - destruct u; try done; unfold js in Hs; simpl in Hs; done.
    - exists c, r. split; [done|]. intros ->. apply Hno. by left. }
  destruct (Hhead d Hd) as (c & r & Hc & Hc45).
  destruct (Hhead d' Hd') as (c' & r' & Hc' & Hc45').
  destruct (n <? 0), (m <? 0); simpl in H.
  - injection H as H. apply js_string_of_uint_inj in H. by subst.
  - rewrite Hc' in H. injection H as H _. by subst.
  - rewrite Hc in H. injection H as H _. by subst.
  - apply js_string_of_uint_inj in H. by subst.
Qed.

Lemma ofZ_nonneg_no_hyphen n : 0 <= n -> 45%N ∉ ofZ n.
Proof.
  intros Hn. destruct (ofZ_shape n) as (d & _ & _ & ->).
  assert ((n <? 0) = false) as -> by (apply Z.ltb_ge; lia).
  apply js_string_of_uint_no_hyphen.
Qed.

(** A list is cut in one way only at the last occurrence of an element. *)
Lemma cut_at_last {A} (x : A) l1 l2 l1' l2' :
  x ∉ l2 -> x ∉ l2' -> l1 ++ x :: l2 = l1' ++ x :: l2' -> l1 = l1' /\ l2 = l2'.
Proof.
  intros H2 H2'. revert l1'. induction l1 as [|a l1 IH]; intros [|b l1'] H;
    simpl in H.
  - by injection H.
  - injection H as _ H. exfalso. apply H2. rewrite H.
    apply elem_of_app. right. by left.
  - injection H as _ H. exfalso. apply H2'. rewrite <- H.
    apply elem_of_app. right. by left.
  - injection H as -> H. destruct (IH _ H) as [-> ->]. done.
Qed.

Lemma chapterKey_inj t i t' i' :
  0 <= i -> 0 <= i' -> chapterKey t i = chapterKey t' i' -> t = t' /\ i = i'.
Proof.
  intros Hi Hi' H. unfold chapterKey in H.
  change (js "-") with [45%N] in H. simpl in H.
  apply cut_at_last in H as [-> H]; [|by apply ofZ_nonneg_no_hyphen..].
  split; [done|]. by apply ofZ_inj.
Qed.

Lemma chapterKey_index_inj t i i' : chapterKey t i = chapterKey t i' -> i = i'.
Proof.
  unfold chapterKey. intros H. apply app_inv_head, app_inv_head in H.
  by apply ofZ_inj.
Qed.

(** X1.  The key of a chapter determines the chapter when chapter indices
    are not negative: two (title, index) pairs with the same key are the
    same pair, whatever hyphens and digits the titles contain.  For one
    title the index alone is determined, negative or not.  With a negative
    index two different chapters can share a key. *)
Theorem chapterKey_determines_chapter :
  (forall t i t' i',
     0 <= i -> 0 <= i' -> chapterKey t i = chapterKey t' i' -> t = t' /\ i = i')
  /\ (forall t i i', chapterKey t i = chapterKey t i' -> i = i')
  /\ (chapterKey (js "A") (-1) = chapterKey (js "A-") 1).
Proof.
  split; [|split].
  - intros t i t' i'. apply chapterKey_inj.
  - intros t i i'. apply chapterKey_index_inj.
  - by vm_compute.
Qed.

(** ** Executions of the service module *)

Section Executions.

Variable apiKey : jsstring.

(** What one step does to the request log and to the cache: either the
    cache is unchanged and new pending requests are appended, or a pending
    request settles. *)
Lemma step_requests ev st st' :
  step apiKey ev st = Some st' ->
  (chapterCache st' = chapterCache st
   /\ exists extra,
        requests st' = requests st ++ extra
        /\ forall rq, rq ∈ extra ->
             req_result rq = None
             /\ req_key rq = chapterKey (req_title rq) (req_index rq))
  \/ (exists p rq r,
        requests st !! p = Some rq /\ req_result rq = None
        /\ st' = resolveRequest p rq (requestContinuation rq r).2
                   (runStatements (requestContinuation rq r).1 st)).
Proof.
  intros Hstep.
  assert (forall o t i s,
            chapterCache (generateChapterContent apiKey o t i s).1 = chapterCache s
            /\ exists extra,
                 requests (generateChapterContent apiKey o t i s).1
                 = requests s ++ extra
                 /\ forall rq, rq ∈ extra ->
                      req_result rq = None
                      /\ req_key rq = chapterKey (req_title rq) (req_index rq))
    as Hgen.
  { intros o t i s.
    destruct (generate_cases apiKey o t i s)
      as [[_ ->]|[(_ & c & _ & ->)|[(_ & _ & q & _ & ->)|(_ & _ & _ & ->)]]];
      simpl; (split; [done|]).
    1-3: exists []; rewrite app_nil_r; split; [done|]; by intros rq ?%elem_of_nil.
    eexists. split; [done|]. by intros rq ->%list_elem_of_singleton. }
  assert (forall s,
            chapterCache (processQueue apiKey s) = chapterCache s
            /\ exists extra,
                 requests (processQueue apiKey s) = requests s ++ extra
                 /\ forall rq, rq ∈ extra ->
                      req_result rq = None
                      /\ req_key rq = chapterKey (req_title rq) (req_index rq))
    as Hproc.
  { intros s. unfold processQueue.
    destruct (preloadQueue s) as [|task rest];
      [split; [done|]; exists []; rewrite app_nil_r; split; [done|];
       by intros rq ?%elem_of_nil|].
    destruct (CONCURRENCY_LIMIT <=? activeWorkers s);
      [split; [done|]; exists []; rewrite app_nil_r; split; [done|];
       by intros rq ?%elem_of_nil|].
    pose proof (Hgen Preload task.1 task.2
                  (withPool rest (activeWorkers s + 1) (running s) s)) as Hg.
    by destruct (generateChapterContent apiKey Preload task.1 task.2 _). }
  destruct ev as [t i|t i|p r|i]; simpl in Hstep.
  - injection Hstep as <-. left. exact (Hgen _ _ _ _).
  - injection Hstep as <-. left. unfold preloadChapter.
    destruct (_ || _);
      [split; [done|]; exists []; rewrite app_nil_r; split; [done|];
       by intros rq ?%elem_of_nil|].
    exact (Hproc (withPool (preloadQueue st ++ [(t, i)]) (activeWorkers st)
                    (running st) st)).
  - right. apply settle_inv in Hstep as (rq & Hp & Hres & ->). by exists p, rq, r.
  - unfold taskSettled in Hstep. destruct (running st !! i); [|done].
    destruct (observe st _); [|done]. injection Hstep as <-. left.
    exact (Hproc (withPool (preloadQueue st) (activeWorkers st - 1)
                    (delete i (running st)) st)).
Qed.

(** Every request is for the key of its title and index, and every cached
    chapter was built from the response to a request for its key. *)
Lemma run_sourced evs st st' :
  run apiKey evs st = Some st' ->
  (forall p rq, requests st !! p = Some rq ->
     req_key rq = chapterKey (req_title rq) (req_index rq)) ->
  (forall k c, chapterCache st !! k = Some c ->
     exists p rq text,
       requests st !! p = Some rq /\ req_key rq = k
       /\ req_result rq = Some (Fulfilled c)
       /\ c = buildChapter k (req_index rq) text) ->
  (forall p rq, requests st' !! p = Some rq ->
     req_key rq = chapterKey (req_title rq) (req_index rq))
  /\ (forall k c, chapterCache st' !! k = Some c ->
        exists p rq text,
          requests st' !! p = Some rq /\ req_key rq = k
          /\ req_result rq = Some (Fulfilled c)
          /\ c = buildChapter k (req_index rq) text).
Proof.
  revert st. induction evs as [|ev evs IH]; intros st H Hkeys Hcache; simpl in H.
  { by injection H as <-. }
  destruct (step apiKey ev st) as [st1|] eqn:Hstep; [|done].
  apply (IH st1 H); clear IH H.
  - destruct (step_requests _ _ _ Hstep)
      as [(_ & extra & -> & Hextra)|(p & rq & r & Hp & Hres & ->)].
    + intros q rq' [Hq|[_ Hq]]%lookup_app_Some; [by eapply Hkeys|].
      apply list_elem_of_lookup_2 in Hq. by apply Hextra.
    + intros q rq'. unfold resolveRequest. simpl.
      rewrite requests_runStatements.
      intros [(-> & <- & _)|[_ Hq]]%list_lookup_insert_Some; simpl; eauto.
  - destruct (step_requests _ _ _ Hstep)
      as [(-> & extra & -> & _)|(p & rq & r & Hp & Hres & ->)].
    + intros k c Hk. destruct (Hcache k c Hk) as (q & rq' & text & Hq & ?).
      exists q, rq', text. split; [by apply lookup_app_l_Some|done].
    + assert (forall k c, chapterCache st !! k = Some c ->
                exists q rq' text,
                  requests (resolveRequest p rq (requestContinuation rq r).2
                              (runStatements (requestContinuation rq r).1 st)) !! q
                  = Some rq'
                  /\ req_key rq' = k /\ req_result rq' = Some (Fulfilled c)
                  /\ c = buildChapter k (req_index rq') text) as Hold.
      { intros k c Hk.
        destruct (Hcache k c Hk) as (q & rq' & text & Hq & Hkq & Hrq & Hc).
        exists q, rq', text. split; [|done]. unfold resolveRequest. simpl.
        rewrite requests_runStatements, list_lookup_insert_ne; [done|].
        intros <-. congruence. }
      destruct r as [text|e]; [|exact Hold].
      intros k c. simpl.
      destruct (decide (req_key rq = k)) as [<-|Hne].
      * rewrite lookup_insert_eq. intros [= <-].
        exists p, (mkRequest (req_key rq) (req_title rq) (req_index rq)
                     (req_origin rq)
                     (Some (Fulfilled (buildChapter (req_key rq) (req_index rq) text)))),
          text.
        split; [|done]. apply list_lookup_insert_eq. by eapply lookup_lt_Some.
      * rewrite lookup_insert_ne by done. apply Hold.
Qed.

(** X2.  A chapter found in the cache is never the error chapter: its id is
    its key, which differs from [error]; it was built from a response for a
    title and index with that key, and carries the number of that index plus
    one.  The reader's test therefore rejects a cached chapter only for a
    body of fewer than 50 code units. *)
Theorem cached_chapter_provenance st k c :
  reachable apiKey st -> chapterCache st !! k = Some c ->
  Chapter.id c = k
  /\ k <> js "error"
  /\ (exists t i text,
        k = chapterKey t i /\ c = buildChapter k i text
        /\ Chapter.number c = i + 1)
  /\ Reader.contentRejected c = (len (Chapter.content c) <? 50).
Proof.
  intros [evs Hrun] Hk.
  destruct (run_sourced _ _ _ Hrun) as [Hkeys Hcache].
  { intros p rq Hp. by destruct p. }
  { intros k' c' Hc'. simpl in Hc'. by rewrite lookup_empty in Hc'. }
  destruct (Hcache k c Hk) as (p & rq & text & Hp & Hkey & _ & Hc).
  pose proof (Hkeys p rq Hp) as Hshape. rewrite Hkey in Hshape.
  assert (k <> js "error") as Hne.
  { intros Heq. assert (45%N ∈ k) as Hin.
    { rewrite Hshape. unfold chapterKey. apply elem_of_app. right. by left. }
    rewrite Heq in Hin. vm_compute in Hin.
    repeat (apply elem_of_cons in Hin as [Hin|Hin]; [done|]).
    by apply elem_of_nil in Hin. }
  assert (Chapter.id c = k) as Hid by (by rewrite Hc).
  split; [done|]. split; [done|]. split.
  - exists (req_title rq), (req_index rq), text. by rewrite Hc.
  - unfold Reader.contentRejected. rewrite Hid.
    by rewrite bool_decide_eq_false_2.
Qed.

(** X3.  The in-flight map holds exactly the pending requests: a key is
    mapped to a request if and only if that request is for this key and has
    not settled; hence two pending requests are never for the same key. *)
Theorem in_flight_map_is_pending_requests st :
  reachable apiKey st ->
  (forall k p,
     activeRequests st !! k = Some p
     <-> exists rq,
           requests st !! p = Some rq /\ req_key rq = k /\ req_result rq = None)
  /\ (forall p q rq rq',
        requests st !! p = Some rq -> requests st !! q = Some rq' ->
        req_result rq = None -> req_result rq' = None ->
        req_key rq = req_key rq' -> p = q).
Proof.
  intros Hreach. destruct (reachable_invariant _ _ Hreach) as [Hcoh _]. split.
  - intros k p. split; [apply (coh_active _ Hcoh)|].
    intros (rq & Hp & <- & Hres). by apply (coh_pending _ Hcoh).
  - intros p q rq rq' Hp Hq Hres Hres' Hk.
    pose proof (coh_pending _ Hcoh _ _ Hp Hres) as H1.
    pose proof (coh_pending _ Hcoh _ _ Hq Hres') as H2.
    rewrite Hk in H1. congruence.
Qed.

(** X5.  In every reachable state the counter [activeWorkers] is the number
    of started tasks that have not finished, it lies between 0 and 3, and a
    task waits in the queue only while all three workers are busy. *)
Theorem pool_is_work_conserving st :
  reachable apiKey st ->
  activeWorkers st = Z.of_nat (length (running st))
  /\ 0 <= activeWorkers st <= 3
  /\ (preloadQueue st <> [] -> activeWorkers st = 3).
Proof.
  intros Hreach. destruct (reachable_invariant _ _ Hreach) as [_ [H1 H2 H3 _]].
  unfold CONCURRENCY_LIMIT in *. split; [done|]. split; [lia|].
  intros Hq. specialize (H3 Hq). lia.
Qed.

(** A call does not look at the pool. *)
Lemma generate_withPool o t i q w hs st :
  generateChapterContent apiKey o t i (withPool q w hs st)
  = (withPool q w hs (generateChapterContent apiKey o t i st).1,
     (generateChapterContent apiKey o t i st).2).
Proof.
  unfold generateChapterContent. simpl.
  destruct (apiKeyMissing apiKey); [done|].
  destruct (chapterCache st !! chapterKey t i); [done|].
  by destruct (activeRequests st !! chapterKey t i).
Qed.

(** X6.  When a started task finishes while tasks are waiting, the oldest
    waiting task is started in the same step and takes the free worker: the
    queue loses its head, the other waiting tasks keep their order, and
    three workers stay busy.  With an empty queue the worker is released. *)
Theorem finished_task_hands_over st i h v :
  reachable apiKey st -> running st !! i = Some h -> observe st h = Some v ->
  exists st',
    taskSettled apiKey i st = Some st'
    /\ match preloadQueue st with
       | [] =>
           preloadQueue st' = [] /\ running st' = delete i (running st)
           /\ activeWorkers st' = activeWorkers st - 1
       | task :: rest =>
           preloadQueue st' = rest /\ activeWorkers st' = 3
           /\ exists h', running st' = delete i (running st) ++ [h']
                /\ h' = (generateChapterContent apiKey Preload task.1 task.2
                           st).2
       end.
Proof.
  intros Hreach Hi Hobs.
  destruct (reachable_invariant _ _ Hreach) as [_ [H1 H2 H3 _]].
  unfold taskSettled. rewrite Hi, Hobs. eexists. split; [done|].
  unfold processQueue. simpl.
  destruct (preloadQueue st) as [|task rest] eqn:Hq; [done|].
  assert (activeWorkers st = 3) as Hfull
    by (unfold CONCURRENCY_LIMIT in *; specialize (H3 ltac:(done)); lia).
  rewrite Hfull. simpl. rewrite !generate_withPool. simpl.
  split; [done|]. split; [done|]. eauto.
Qed.

(** Every started task awaits an existing request. *)
Lemma run_handles_exist evs st st' :
  run apiKey evs st = Some st' -> coherent st ->
  (forall h, h ∈ running st ->
     match h with
     | Now _ => True
     | Joined p | Owner p _ => is_Some (requests st !! p)
     end) ->
  forall h, h ∈ running st' ->
    match h with
    | Now _ => True
    | Joined p | Owner p _ => is_Some (requests st' !! p)
    end.
Proof.
  revert st. induction evs as [|ev evs IH]; intros st H Hcoh Hval; simpl in H.
  { by injection H as <-. }
  destruct (step apiKey ev st) as [st1|] eqn:Hstep; [|done].
  apply (IH st1 H); clear IH H.
  { destruct ev; simpl in Hstep;
      [injection Hstep as <-; by apply generate_coherent
      |injection Hstep as <-; by apply preloadChapter_coherent
      |by eapply settle_coherent|by eapply taskSettled_coherent]. }
  assert (forall s hs,
            coherent s ->
            (forall h, h ∈ hs ->
               match h with
               | Now _ => True
               | Joined p | Owner p _ => is_Some (requests s !! p)
               end) ->
            forall q w h,
              h ∈ running (processQueue apiKey (withPool q w hs s)) ->
              match h with
              | Now _ => True
              | Joined p | Owner p _ =>
                  is_Some (requests (processQueue apiKey (withPool q w hs s)) !! p)
              end) as Hproc.
  { intros s hs Hs Hhs q w h. unfold processQueue. simpl.
    destruct q as [|task rest]; [by apply Hhs|].
    destruct (CONCURRENCY_LIMIT <=? w); [by apply Hhs|].
    rewrite !generate_withPool. simpl.
    destruct (generate_cases apiKey Preload task.1 task.2 s)
      as [[_ ->]|[(_ & c & _ & ->)|[(_ & _ & p & Hp & ->)|(_ & _ & _ & ->)]]];
      simpl; (intros [Hh|Hh%list_elem_of_singleton]%elem_of_app;
              [specialize (Hhs _ Hh); destruct h as [c'|p'|p' j]; [done|..];
               destruct Hhs as [rq Hrq];
               rewrite ?(lookup_app_l_Some _ _ _ _ Hrq); eauto
              |subst h]); try done.
    - destruct (coh_active _ Hs _ _ Hp) as (rq & -> & _). eauto.
    - rewrite list_lookup_middle; eauto. }
  destruct ev as [t i|t i|p r|i]; simpl in Hstep.
  - injection Hstep as <-. intros h Hh.
    assert (running (generateChapterContent apiKey Foreground t i st).1
            = running st) as Hrun.
    { destruct (generate_cases apiKey Foreground t i st)
        as [[_ ->]|[(_ & c & _ & ->)|[(_ & _ & q & _ & ->)|(_ & _ & _ & ->)]]];
        done. }
    rewrite Hrun in Hh. specialize (Hval _ Hh).
    destruct h as [c|p|p j]; [done|..]; destruct Hval as [rq Hrq];
      destruct (step_request_kept apiKey (CallGenerate t i) st _ p rq eq_refl Hrq)
        as (rq' & -> & _); eauto.
  - injection Hstep as <-. unfold preloadChapter.
    destruct (_ || _); [done|]. by apply Hproc.
  - intros h Hh.
    assert (running st1 = running st) as Hrun.
    { apply settle_inv in Hstep as (rq & _ & _ & ->). by destruct r. }
    rewrite Hrun in Hh. specialize (Hval _ Hh).
    destruct h as [c|q|q j]; [done|..]; destruct Hval as [rq Hrq];
      destruct (step_request_kept apiKey (AdapterSettles p r) st _ q rq Hstep Hrq)
        as (rq' & -> & _); eauto.
  - unfold taskSettled in Hstep.
    destruct (running st !! i) as [h0|] eqn:Hi; [|done].
    destruct (observe st _); [|done]. injection Hstep as <-.
    apply Hproc; [done|]. intros h' Hh'. apply Hval.
    by eapply list_elem_of_delete_inv.
Qed.

(** X7.  No worker is ever stuck: in a reachable state in which every call
    of the API has settled, every started task can finish, whether the call
    it waited for succeeded or failed. *)
Theorem settled_calls_release_workers st i h :
  reachable apiKey st ->
  (forall p rq, requests st !! p = Some rq -> is_Some (req_result rq)) ->
  running st !! i = Some h ->
  is_Some (observe st h) /\ is_Some (taskSettled apiKey i st).
Proof.
  intros [evs Hrun] Hall Hi.
  pose proof (run_handles_exist _ _ _ Hrun coherent_initial) as Hval.
  assert (is_Some (observe st h)) as [v Hv].
  { specialize (Hval ltac:(by intros h' ?%elem_of_nil) h
                  (list_elem_of_lookup_2 _ _ _ Hi)).
    destruct h as [c|p|p j]; simpl; [eauto|..]; destruct Hval as [rq Hrq];
      destruct (Hall _ _ Hrq) as [w Hw]; unfold promiseState; rewrite Hrq, Hw;
      [eauto|destruct w; eauto]. }
  split; [eauto|]. unfold taskSettled. rewrite Hi, Hv. eauto.
Qed.

(** The module without an API key. *)
Lemma run_keyless evs st st' :
  apiKeyMissing apiKey = true -> run apiKey evs st = Some st' ->
  requests st = [] /\ chapterCache st = ∅ /\ activeRequests st = ∅
  /\ Forall (fun h => h = Now missingKeyChapter) (running st) ->
  requests st' = [] /\ chapterCache st' = ∅ /\ activeRequests st' = ∅
  /\ Forall (fun h => h = Now missingKeyChapter) (running st').
Proof.
  intros Hkey. revert st. induction evs as [|ev evs IH]; intros st H Hst;
    simpl in H.
  { by injection H as <-. }
  destruct (step apiKey ev st) as [st1|] eqn:Hstep; [|done].
  apply (IH st1 H); clear IH H. destruct Hst as (Hr & Hc & Ha & Hh).
  assert (forall o t i s,
            generateChapterContent apiKey o t i s = (s, Now missingKeyChapter))
    as Hgen.
  { intros o t i s. unfold generateChapterContent. by rewrite Hkey. }
  assert (forall q w hs,
            Forall (fun h => h = Now missingKeyChapter) hs ->
            requests (processQueue apiKey (withPool q w hs st)) = []
            /\ chapterCache (processQueue apiKey (withPool q w hs st)) = ∅
            /\ activeRequests (processQueue apiKey (withPool q w hs st)) = ∅
            /\ Forall (fun h => h = Now missingKeyChapter)
                 (running (processQueue apiKey (withPool q w hs st)))) as Hproc.
  { intros q w hs Hhs. unfold processQueue. simpl.
    destruct q as [|task rest]; [done|].
    destruct (CONCURRENCY_LIMIT <=? w); [done|].
    rewrite Hgen. simpl. split_and!; try done.
    apply Forall_app. split; [done|]. by constructor. }
  destruct ev as [t i|t i|p r|i]; simpl in Hstep.
  - injection Hstep as <-. by rewrite Hgen.
  - injection Hstep as <-. unfold preloadChapter.
    destruct (_ || _); [done|]. by apply Hproc.
  - apply settle_inv in Hstep as (rq & Hp & _). by rewrite Hr in Hp.
  - unfold taskSettled in Hstep. destruct (running st !! i); [|done].
    destruct (observe st _); [|done]. injection Hstep as <-.
    apply Hproc. by apply Forall_delete.
Qed.

End Executions.

(** X8.  Without an API key the module never calls the API, never caches and
    never registers anything, whatever is called and in whatever order; every
    preload task that is started awaits the already resolved error chapter,
    so it can always finish. *)
Theorem keyless_module_stays_empty evs st :
  run [] evs initial = Some st ->
  requests st = [] /\ chapterCache st = ∅ /\ activeRequests st = ∅
  /\ forall i h, running st !! i = Some h ->
       h = Now missingKeyChapter /\ is_Some (taskSettled [] i st).
Proof.
  intros Hrun.
  destruct (run_keyless [] evs initial st eq_refl Hrun) as (Hr & Hc & Ha & Hh);
    [by split_and!; try done; constructor|].
  split_and!; try done. intros i h Hi.
  assert (h = Now missingKeyChapter) as ->.
  { rewrite Forall_forall in Hh. apply Hh. by eapply list_elem_of_lookup_2. }
  split; [done|]. unfold taskSettled. rewrite Hi. simpl. eauto.
Qed.

(** ** Bursts of preloads *)

Section Bursts.

Variable apiKey : jsstring.

Lemma preloadAll_cons task tasks st :
  preloadAll apiKey (task :: tasks) st
  = preloadAll apiKey tasks (preloadChapter apiKey task.1 task.2 st).
Proof. done. Qed.

Lemma preloadAll_spec tasks st :
  reachable apiKey st -> apiKeyMissing apiKey = false ->
  NoDup (map (fun task => chapterKey task.1 task.2) tasks) ->
  (forall task, task ∈ tasks ->
     chapterCache st !! chapterKey task.1 task.2 = None
     /\ activeRequests st !! chapterKey task.1 task.2 = None) ->
  let free := Z.to_nat (CONCURRENCY_LIMIT - activeWorkers st) in
  let st' := preloadAll apiKey tasks st in
  preloadQueue st' = preloadQueue st ++ drop free tasks
  /\ requests st'
     = requests st
       ++ map (fun task =>
                 mkRequest (chapterKey task.1 task.2) task.1 task.2 Preload None)
            (take free tasks)
  /\ activeWorkers st' = activeWorkers st + Z.of_nat (length (take free tasks))
  /\ chapterCache st' = chapterCache st.
Proof.
  intros Hreach Hkey. revert st Hreach.
  induction tasks as [|[t i] tasks IH]; intros st Hreach Hdup Hfresh; simpl.
  { rewrite drop_nil, take_nil, !app_nil_r. simpl. split_and!; [done..|lia|done]. }
  destruct (reachable_invariant _ _ Hreach) as [_ [H1 H2 H3 _]].
  apply NoDup_cons in Hdup as [Hnotin Hdup].
  destruct (Hfresh (t, i)) as [Hc Ha]; [by left|]. simpl in Hc, Ha.
  assert (reachable apiKey (preloadChapter apiKey t i st)) as Hreach1.
  { by apply (reachable_run _ [CallPreload t i] st). }
  change (foldl _ (preloadChapter apiKey t i st) tasks)
    with (preloadAll apiKey tasks (preloadChapter apiKey t i st)).
  specialize (IH _ Hreach1 Hdup).
  rewrite (preloadChapter_enqueues apiKey t i st Hc Ha) in *.
  unfold CONCURRENCY_LIMIT in *.
  destruct (decide (activeWorkers st < 3)) as [Hfree|Hfull].
  - assert (preloadQueue st = []) as Hq.
    { destruct (preloadQueue st) eqn:Hq; [done|].
      assert (3 <= activeWorkers st) by (by apply H3). lia. }
    assert (processQueue apiKey
              (withPool (preloadQueue st ++ [(t, i)]) (activeWorkers st)
                 (running st) st)
            = withPool [] (activeWorkers st + 1)
                (running st ++ [Owner (length (requests st)) i])
                (activeSet (chapterKey t i) (length (requests st))
                   (withRequests
                      (requests st
                       ++ [mkRequest (chapterKey t i) t i Preload None]) st)))
      as Hst1.
    { unfold processQueue. simpl. rewrite Hq. simpl.
      unfold CONCURRENCY_LIMIT. apply Z.leb_gt in Hfree. rewrite Hfree.
      rewrite generate_withPool, (generate_creates apiKey) by done. done. }
    rewrite Hst1 in *.
    destruct IH as (IHq & IHr & IHw & IHc).
    { intros [t' i'] Hin. simpl. destruct (Hfresh (t', i')) as [Hc' Ha'];
        [by right|]. simpl in Hc', Ha'. split; [done|].
      rewrite lookup_insert_ne; [done|]. intros Heq. apply Hnotin.
      apply list_elem_of_fmap. by exists (t', i'). }
    simpl in IHq, IHr, IHw, IHc.
    assert (Z.to_nat (3 - activeWorkers st)
            = S (Z.to_nat (3 - (activeWorkers st + 1)))) as -> by lia.
    simpl. rewrite Hq, IHq, IHr, IHw, IHc, <- app_assoc. simpl.
    split_and!; [done..|lia|done].
  - rewrite (processQueue_full apiKey) in * by (simpl; unfold CONCURRENCY_LIMIT; lia).
    destruct IH as (IHq & IHr & IHw & IHc).
    { intros task Hin. simpl. apply Hfresh. by right. }
    simpl in IHq, IHr, IHw, IHc.
    assert (Z.to_nat (3 - activeWorkers st) = 0%nat) as Hzero by lia.
    rewrite Hzero in *. simpl.
    rewrite IHq, IHr, IHw, IHc, <- app_assoc. simpl. done.
Qed.

(** X9.  A burst of preloads for distinct chapters that are neither cached
    nor in flight starts as many tasks as workers are free, in the order of
    the calls, each with its own call of the API, and puts the others at the
    end of the queue in the same order; nothing is dropped and the cache is
    not touched. *)
Theorem preload_burst tasks st :
  reachable apiKey st -> apiKeyMissing apiKey = false ->
  NoDup (map (fun task => chapterKey task.1 task.2) tasks) ->
  (forall task, task ∈ tasks ->
     chapterCache st !! chapterKey task.1 task.2 = None
     /\ activeRequests st !! chapterKey task.1 task.2 = None) ->
  let free := Z.to_nat (CONCURRENCY_LIMIT - activeWorkers st) in
  let st' := preloadAll apiKey tasks st in
  preloadQueue st' = preloadQueue st ++ drop free tasks
  /\ requests st'
     = requests st
       ++ map (fun task =>
                 mkRequest (chapterKey task.1 task.2) task.1 task.2 Preload None)
            (take free tasks)
  /\ activeWorkers st' = activeWorkers st + Z.of_nat (length (take free tasks))
  /\ chapterCache st' = chapterCache st.
Proof. apply preloadAll_spec. Qed.

Lemma performAll_preloads t idx (l : list Z) st :
  performAll apiKey (map (fun i => Reader.PreloadNext t (idx + i)) l) st
  = (preloadAll apiKey (map (fun i => (t, idx + i)) l) st, []).
Proof.
  revert st. induction l as [|i l IH]; intros st; simpl; [done|].
  by rewrite IH.
Qed.

(** X10.  Opening the reader on chapter [idx] of a novel, on a module that
    has done nothing yet and has an API key, calls the API at once for the
    chapter itself and for the next three chapters, and leaves the preloads
    of the fourth and fifth next chapters in the queue, in that order. *)
Theorem reader_opening t idx src :
  apiKeyMissing apiKey = false ->
  exists st',
    performAll apiKey (Reader.effectActions t (Reader.mount idx src)) initial
    = (st', [Owner 0 idx])
    /\ requests st'
       = [ mkRequest (chapterKey t idx) t idx Foreground None;
           mkRequest (chapterKey t (idx + 1)) t (idx + 1) Preload None;
           mkRequest (chapterKey t (idx + 2)) t (idx + 2) Preload None;
           mkRequest (chapterKey t (idx + 3)) t (idx + 3) Preload None ]
    /\ preloadQueue st' = [(t, idx + 4); (t, idx + 5)]
    /\ activeWorkers st' = 3
    /\ chapterCache st' = ∅.
Proof.
  intros Hkey.
  set (st1 := (generateChapterContent apiKey Foreground t idx initial).1).
  assert (generateChapterContent apiKey Foreground t idx initial
          = (st1, Owner 0 idx)) as Hfirst.
  { subst st1. by rewrite (generate_creates apiKey). }
  assert (reachable apiKey st1) as Hreach.
  { exists [CallGenerate t idx]. simpl. by rewrite Hfirst. }
  assert (NoDup (map (fun task : jsstring * Z => chapterKey task.1 task.2)
                   (readerPreloads t idx))) as Hdup.
  { unfold readerPreloads. rewrite <- list_fmap_compose.
    apply NoDup_fmap_2.
    - intros i j Hij. simpl in Hij. apply chapterKey_index_inj in Hij. lia.
    - apply (bool_decide_unpack _). by vm_compute. }
  assert (forall task, task ∈ readerPreloads t idx ->
            chapterCache st1 !! chapterKey task.1 task.2 = None
            /\ activeRequests st1 !! chapterKey task.1 task.2 = None) as Hfresh.
  { intros task (i & -> & Hi)%list_elem_of_fmap. simpl.
    subst st1. rewrite (generate_creates apiKey) by done. simpl.
    split; [apply lookup_empty|].
    rewrite lookup_insert_ne; [apply lookup_empty|].
    intros Heq%chapterKey_index_inj.
    repeat (apply elem_of_cons in Hi as [->|Hi]; [lia|]).
    by apply elem_of_nil in Hi. }
  destruct (preloadAll_spec (readerPreloads t idx) st1 Hreach Hkey Hdup Hfresh)
    as (Hq & Hr & Hw & Hc).
  exists (preloadAll apiKey (readerPreloads t idx) st1).
  assert (activeWorkers st1 = 0 /\ preloadQueue st1 = []
          /\ requests st1 = [mkRequest (chapterKey t idx) t idx Foreground None]
          /\ chapterCache st1 = ∅) as (Hw1 & Hq1 & Hr1 & Hc1).
  { subst st1. by rewrite (generate_creates apiKey). }
  rewrite Hw1, Hq1 in *. rewrite Hr1 in Hr. rewrite Hc1 in Hc.
  split; [|done].
  assert (Reader.effectActions t (Reader.mount idx src)
          = Reader.ScrollToTop :: Reader.Fetch t idx
            :: map (fun i => Reader.PreloadNext t (idx + i)) [1; 2; 3; 4; 5])
    as -> by done.
  cbn [performAll perform]. rewrite Hfirst.
  by rewrite (performAll_preloads t idx [1; 2; 3; 4; 5]).
Qed.

Lemma homePreloads_keys_NoDup (titles : list jsstring) :
  NoDup titles ->
  NoDup (map (fun task : jsstring * Z => chapterKey task.1 task.2)
           (flat_map (fun novelTitle => [(novelTitle, 0); (novelTitle, 1)])
              titles)).
Proof.
  induction titles as [|t titles IH]; intros Hdup; simpl; [apply NoDup_nil_2|].
  apply NoDup_cons in Hdup as [Hnotin Hdup].
  assert (forall i, 0 <= i ->
            chapterKey t i
            ∉ map (fun task : jsstring * Z => chapterKey task.1 task.2)
                (flat_map (fun novelTitle => [(novelTitle, 0); (novelTitle, 1)])
                   titles)) as Hother.
  { intros i Hi ([t' i'] & Heq & Hin)%list_elem_of_fmap. simpl in Heq.
    apply list_elem_of_In, in_flat_map in Hin as (t'' & Hin & Hpair).
    assert (t' = t'' /\ 0 <= i') as [-> Hi'].
    { destruct Hpair as [[= <- <-]|[[= <- <-]|[]]]; split; (done || lia). }
    apply chapterKey_inj in Heq as [-> _]; [|done..].
    apply Hnotin. by apply list_elem_of_In. }
  apply NoDup_cons. split.
  - rewrite not_elem_of_cons. split; [|by apply Hother].
    intros Heq%chapterKey_index_inj. done.
  - apply NoDup_cons. split; [by apply Hother|by apply IH].
Qed.

(** X11.  The preloads of the home page, for rankings whose first six titles
    are all different, on a module that has done nothing yet and has an API
    key: at most 24 preloads are asked for, the first three call the API at
    once and the others wait in the queue in the order of the rankings, first
    chapter before second. *)
Theorem home_preloads urban history :
  apiKeyMissing apiKey = false ->
  NoDup (take 6 urban ++ take 6 history) ->
  let tasks := homePreloads urban history in
  let st' := preloadAll apiKey tasks initial in
  (length tasks <= 24)%nat
  /\ requests st'
     = map (fun task =>
              mkRequest (chapterKey task.1 task.2) task.1 task.2 Preload None)
         (take 3 tasks)
  /\ preloadQueue st' = drop 3 tasks
  /\ activeWorkers st' = Z.of_nat (length (take 3 tasks)).
Proof.
  intros Hkey Hdup tasks st'.
  assert (length tasks <= 24)%nat as Hlen.
  { subst tasks. unfold homePreloads.
    assert (forall l : list jsstring,
              length (flat_map (fun novelTitle => [(novelTitle, 0); (novelTitle, 1)]) l)
              = (2 * length l)%nat) as Hflat.
    { induction l as [|x l IHl]; simpl; [done|]. rewrite IHl. lia. }
    rewrite Hflat, length_app, !length_take. lia. }
  split; [done|].
  destruct (preloadAll_spec tasks initial) as (Hq & Hr & Hw & _);
    [by exists []|done|by apply homePreloads_keys_NoDup| |done].
  intros task _. simpl. split; apply lookup_empty.
Qed.


End Bursts.

(** ** Sessions of the reader *)

Section Sessions.

Import Reader.

Variable novelTitle : jsstring.
Variable sourceName : option jsstring.

Lemma loadChapterSettled_ok closure data cur :
  contentRejected data = false ->
  loadChapterSettled closure (Fulfilled data) cur
  = finallyBlock closure (setIsAutoSwitching false (setChapter (Some data) cur)).
Proof. intros H. unfold loadChapterSettled. by rewrite H. Qed.

(** When no retry follows, an attempt leaves [retryCount] and the chapter
    index as they are. *)
Lemma last_attempt_keeps_count st r :
  attemptFailed r = false \/ 3 <= retryCount st ->
  retryCount (loadChapterSettled st r (setLoading true st)) = retryCount st
  /\ chapterIndex (loadChapterSettled st r (setLoading true st)) = chapterIndex st.
Proof.
  intros H. unfold loadChapterSettled, finallyBlock.
  assert (forall s,
            retryCount (if (3 <=? retryCount st)
                           || negb (isAutoSwitching st)
                              && match chapter st with Some _ => true | None => false end
                        then setLoading false s else s) = retryCount s
            /\ chapterIndex (if (3 <=? retryCount st)
                               || negb (isAutoSwitching st)
                                  && match chapter st with Some _ => true | None => false end
                            then setLoading false s else s) = chapterIndex s)
    as Hfin by (intros s; by destruct (_ || _)).
  destruct r as [data|e]; simpl in H.
  - destruct (contentRejected data) eqn:Hrej.
    + destruct H as [H|H]; [done|]. rewrite (proj1 (Hfin _)), (proj2 (Hfin _)).
      unfold catchBlock. assert ((retryCount st <? 3) = false) as ->
        by (apply Z.ltb_ge; lia). done.
    + by rewrite (proj1 (Hfin _)), (proj2 (Hfin _)).
  - destruct H as [H|H]; [done|]. rewrite (proj1 (Hfin _)), (proj2 (Hfin _)).
    unfold catchBlock. assert ((retryCount st <? 3) = false) as ->
      by (apply Z.ltb_ge; lia). done.
Qed.

(** The trace of the retries: each is the wait followed by the call. *)
Lemma session_retry outcomes st :
  0 < retryCount st <= 3 -> isAutoSwitching st = true ->
  exists n : nat,
    (session novelTitle outcomes st).2
    = concat (replicate (S n) [Delay 1500; Fetch novelTitle (chapterIndex st)])
    /\ retryCount (session novelTitle outcomes st).1 = retryCount st + Z.of_nat n
    /\ retryCount (session novelTitle outcomes st).1 <= 3
    /\ chapterIndex (session novelTitle outcomes st).1 = chapterIndex st.
Proof.
  revert st. induction outcomes as [|r rest IH]; intros st Hcount Hauto.
  { exists 0%nat. simpl. unfold effectActions. rewrite Hauto.
    assert ((0 <? retryCount st) = true) as -> by (apply Z.ltb_lt; lia).
    assert ((retryCount st =? 0) = false) as -> by (apply Z.eqb_neq; lia).
    simpl. split_and!; [done|lia|lia|done]. }
  rewrite session_cons. cbv zeta.
  assert (effectActions novelTitle st
          = [Delay 1500; Fetch novelTitle (chapterIndex st)]) as Hacts.
  { unfold effectActions. rewrite Hauto.
    assert ((0 <? retryCount st) = true) as -> by (apply Z.ltb_lt; lia).
    assert ((retryCount st =? 0) = false) as -> by (apply Z.eqb_neq; lia).
    done. }
  destruct (attemptFailed r) eqn:Hr;
    [destruct (decide (retryCount st < 3)) as [Hlt|Hge]|].
  - rewrite (failed_attempt_state st r Hr Hlt). simpl.
    assert ((retryCount st + 1 =? retryCount st) = false) as ->
      by (apply Z.eqb_neq; lia).
    destruct (IH (mkReader (chapterIndex st) (chapter st)
                    (negb (negb (isAutoSwitching st)
                           && match chapter st with Some _ => true | None => false end))
                    (js "备用线路 " ++ ofZ (retryCount st + 1))
                    (retryCount st + 1) true))
      as (n & Hacts' & Hcount' & Hle & Hidx); [simpl; lia|done|].
    destruct (session novelTitle rest _) as [final acts]. simpl in *.
    exists (S n). rewrite Hacts, Hacts'. split_and!; [done|lia|lia|done].
  - destruct (last_attempt_keeps_count st r) as [Hsame Hidx]; [right; lia|].
    rewrite Hsame, Z.eqb_refl. simpl. exists 0%nat.
    rewrite Hacts, Hsame, Hidx. simpl. split_and!; [done|lia|lia|done].
  - destruct (last_attempt_keeps_count st r) as [Hsame Hidx]; [by left|].
    rewrite Hsame, Z.eqb_refl. simpl. exists 0%nat.
    rewrite Hacts, Hsame, Hidx. simpl. split_and!; [done|lia|lia|done].
Qed.

Lemma fetchCount_retries n i :
  fetchCount (concat (replicate n [Delay 1500; Fetch novelTitle i])) = n.
Proof.
  unfold fetchCount. induction n as [|n IH]; [done|].
  cbn [replicate concat app].
  rewrite filter_cons_False by done. rewrite filter_cons_True by done.
  simpl. by rewrite IH.
Qed.

(** X13.  Whatever the calls return, the session that the first render
    opens on chapter [idx] does, as long as the user does not navigate, the
    actions of the first attempt (scroll, call, five preloads) followed by at
    most three retries, each being the 1500 ms wait and a call for the same
    chapter: it never makes more than four calls, preloads once only, and
    ends with [retryCount] equal to the number of retries made. *)
Theorem session_trace outcomes idx src :
  exists n : nat,
    (n <= 3)%nat
    /\ (session novelTitle outcomes (mount idx src)).2
       = [ScrollToTop; Fetch novelTitle idx;
          PreloadNext novelTitle (idx + 1); PreloadNext novelTitle (idx + 2);
          PreloadNext novelTitle (idx + 3); PreloadNext novelTitle (idx + 4);
          PreloadNext novelTitle (idx + 5)]
         ++ concat (replicate n [Delay 1500; Fetch novelTitle idx])
    /\ fetchCount (session novelTitle outcomes (mount idx src)).2 = S n
    /\ retryCount (session novelTitle outcomes (mount idx src)).1 = Z.of_nat n
    /\ chapterIndex (session novelTitle outcomes (mount idx src)).1 = idx.
Proof.
  assert (forall (n : nat) acts,
            acts = [ScrollToTop; Fetch novelTitle idx;
                    PreloadNext novelTitle (idx + 1); PreloadNext novelTitle (idx + 2);
                    PreloadNext novelTitle (idx + 3); PreloadNext novelTitle (idx + 4);
                    PreloadNext novelTitle (idx + 5)]
                   ++ concat (replicate n [Delay 1500; Fetch novelTitle idx]) ->
            fetchCount acts = S n) as Hcount.
  { intros n acts ->. pose proof (fetchCount_retries n idx) as Hn.
    unfold fetchCount in *. rewrite filter_app, length_app, Hn. done. }
  destruct outcomes as [|r rest].
  { exists 0%nat. simpl. split_and!; try done. lia. }
  rewrite session_cons. cbv zeta.
  destruct (attemptFailed r) eqn:Hr.
  - rewrite (failed_attempt_state (mount idx src) r Hr) by (simpl; lia).
    cbn -[js ofZ app session concat replicate].
    destruct (session_retry rest
                (mkReader idx None true (js "备用线路 " ++ ofZ 1) 1 true))
      as (n & Hacts & Hretry & Hle & Hidx); [simpl; lia|done|].
    destruct (session novelTitle rest _) as [final acts]. simpl in *.
    exists (S n). subst acts. split_and!; [lia|done| |lia|done].
    by apply (Hcount (S n)).
  - destruct (last_attempt_keeps_count (mount idx src) r) as [Hsame Hidx];
      [by left|].
    rewrite Hsame, Z.eqb_refl. exists 0%nat.
    cbn [fst snd]. rewrite Hsame, Hidx. split_and!; try done. lia.
Qed.

(** X14.  When the calls of the session that the first render opens fail
    [k] times in a row, with [k] at most 3, and the next call returns a
    chapter that passes the reader's test, the session ends, the user not
    having navigated, with that chapter, not switching source, after [k]
    retries and [k + 1] calls; later results are not consumed. *)
Theorem success_ends_session fails data rest idx src :
  Forall (fun r => attemptFailed r = true) fails ->
  (length fails <= 3)%nat ->
  contentRejected data = false ->
  chapter (session novelTitle (fails ++ Fulfilled data :: rest) (mount idx src)).1
  = Some data
  /\ isAutoSwitching
       (session novelTitle (fails ++ Fulfilled data :: rest) (mount idx src)).1
     = false
  /\ retryCount
       (session novelTitle (fails ++ Fulfilled data :: rest) (mount idx src)).1
     = Z.of_nat (length fails)
  /\ fetchCount
       (session novelTitle (fails ++ Fulfilled data :: rest) (mount idx src)).2
     = S (length fails).
Proof.
  intros Hfails Hlen Hok. unfold mount.
  destruct fails as [|r1 [|r2 [|r3 [|r4 fails]]]]; simpl in Hlen; [..|lia];
    repeat match goal with
           | H : Forall _ (_ :: _) |- _ => apply Forall_cons in H as [? H]
           end;
    simpl app;
    repeat (rewrite !session_cons;
            rewrite ?loadChapterSettled_failed by done;
            rewrite ?loadChapterSettled_ok by done;
            cbn -[js ofZ app session]);
    unfold fetchCount; simpl; done.
Qed.

(** X15.  In the session that the first render opens (so that no chapter
    has been displayed and no other call of [loadChapter] is running), the
    user not navigating, [loading] is set back to false after a success only
    when the success comes at the fourth attempt: the [finally] block tests
    the values captured when the effect started.  After a success at one of
    the first three attempts the chapter is stored but [loading] is still
    true. *)
Theorem loading_after_success fails data rest idx src :
  Forall (fun r => attemptFailed r = true) fails ->
  (length fails <= 3)%nat ->
  contentRejected data = false ->
  loading (session novelTitle (fails ++ Fulfilled data :: rest) (mount idx src)).1
  = bool_decide (length fails < 3)%nat.
Proof.
  intros Hfails Hlen Hok. unfold mount.
  destruct fails as [|r1 [|r2 [|r3 [|r4 fails]]]]; simpl in Hlen; [..|lia];
    repeat match goal with
           | H : Forall _ (_ :: _) |- _ => apply Forall_cons in H as [? H]
           end;
    simpl app;
    repeat (rewrite !session_cons;
            rewrite ?loadChapterSettled_failed by done;
            rewrite ?loadChapterSettled_ok by done;
            cbn -[js ofZ app session]);
    done.
Qed.

(** A settlement leaves the chapter index as it is. *)
Lemma loadChapterSettled_chapterIndex closure r cur :
  chapterIndex (loadChapterSettled closure r cur) = chapterIndex cur.
Proof.
  unfold loadChapterSettled, finallyBlock, catchBlock.
  destruct ((3 <=? retryCount closure) || _), r as [data|e];
    [destruct (contentRejected data)| |destruct (contentRejected data)|];
    by destruct (retryCount closure <? 3).
Qed.

(** Without navigation the component with one unfinished [loadChapter],
    whose captured state is the current one, goes through the states and
    the actions of [session]. *)
Lemma settleAll_session outcomes st tr :
  Component.state
    (Component.settleAll novelTitle sourceName outcomes
       (Component.mk (setLoading true st) [st]
          (tr ++ effectActions novelTitle st)))
  = (session novelTitle outcomes st).1
  /\ Component.trace
       (Component.settleAll novelTitle sourceName outcomes
          (Component.mk (setLoading true st) [st]
             (tr ++ effectActions novelTitle st)))
     = tr ++ (session novelTitle outcomes st).2.
Proof.
  revert st tr. induction outcomes as [|r rest IH]; intros st tr; [done|].
  rewrite session_cons. cbv zeta.
  cbn [Component.settleAll Component.step Component.loads Component.state
       Component.trace lookup list_lookup].
  pose proof (loadChapterSettled_chapterIndex st r (setLoading true st)) as Hidx.
  destruct (retryCount (loadChapterSettled st r (setLoading true st))
            =? retryCount st) eqn:Hcount.
  - apply Z.eqb_eq in Hcount.
    rewrite (commit_idle novelTitle sourceName) by done.
    by destruct rest.
  - apply Z.eqb_neq in Hcount.
    rewrite (commit_retry novelTitle sourceName) by done.
    cbn [delete list_delete app].
    destruct (IH (loadChapterSettled st r (setLoading true st))
                (tr ++ effectActions novelTitle st)) as [Hstate Htrace].
    rewrite Hstate, Htrace.
    destruct (session novelTitle rest _) as [final acts].
    split; [done|]. simpl. by rewrite <- app_assoc.
Qed.

(** The component from its first render on is the session of [session]. *)
Lemma mounted_session outcomes idx :
  Component.state
    (Component.settleAll novelTitle sourceName outcomes
       (Component.mounted novelTitle sourceName idx))
  = (session novelTitle outcomes (mount idx sourceName)).1
  /\ Component.trace
       (Component.settleAll novelTitle sourceName outcomes
          (Component.mounted novelTitle sourceName idx))
     = (session novelTitle outcomes (mount idx sourceName)).2.
Proof. apply (settleAll_session outcomes (mount idx sourceName) []). Qed.

(** X23.  A click that changes the chapter runs the load effect in the render
    of the new index, on the values of that render: a [loadChapter] starts
    for the new chapter with the [retryCount], [isAutoSwitching] and
    [chapter] of before the reset, next to the calls of [loadChapter] that
    are still unfinished; the reset then gives [retryCount] 0, not switching
    and the default source name.  When [retryCount] was 0 this is the only
    run.  When it was not, the reset changes [retryCount] and the load
    effect runs a second time: two calls of [generateChapterContent] are
    made for the new chapter, the first after the 1500 ms wait and without
    preloads, the second with the scroll and the five preloads. *)
Theorem chapter_change_starts_loads c k :
  Navigation.click k (chapterIndex (Component.state c))
  <> chapterIndex (Component.state c) ->
  let idx := Navigation.click k (chapterIndex (Component.state c)) in
  let stale := Component.setChapterIndex (Navigation.click k) (Component.state c) in
  let fresh := setLoading true (Component.resetEffect sourceName stale) in
  exists c',
    Component.step novelTitle sourceName (Component.Clicks k) c = Some c'
    /\ Component.state c' = fresh
    /\ fresh = mkReader idx (chapter (Component.state c)) true
                 (defaultSourceName sourceName) 0 false
    /\ chapterIndex stale = idx
    /\ retryCount stale = retryCount (Component.state c)
    /\ isAutoSwitching stale = isAutoSwitching (Component.state c)
    /\ chapter stale = chapter (Component.state c)
    /\ (retryCount (Component.state c) = 0 ->
        Component.loads c' = Component.loads c ++ [stale]
        /\ Component.trace c'
           = Component.trace c ++ effectActions novelTitle stale)
    /\ (retryCount (Component.state c) <> 0 ->
        Component.loads c' = Component.loads c ++ [stale; fresh]
        /\ Component.trace c'
           = Component.trace c ++ effectActions novelTitle stale
             ++ effectActions novelTitle fresh
        /\ effectActions novelTitle fresh
           = [ScrollToTop; Fetch novelTitle idx;
              PreloadNext novelTitle (idx + 1); PreloadNext novelTitle (idx + 2);
              PreloadNext novelTitle (idx + 3); PreloadNext novelTitle (idx + 4);
              PreloadNext novelTitle (idx + 5)]
        /\ (0 < retryCount (Component.state c) ->
            effectActions novelTitle stale
            = (if isAutoSwitching (Component.state c) then [] else [ScrollToTop])
              ++ [Delay 1500; Fetch novelTitle idx])).
Proof.
  intros Hmove idx stale fresh. eexists. split; [reflexivity|].
  cbn [Component.step]. unfold Component.commit. fold stale.
  assert ((chapterIndex stale =? chapterIndex (Component.state c)) = false)
    as -> by (by apply Z.eqb_neq).
  cbn [negb]. cbv zeta. cbn [Component.loadEffect Component.state Component.loads
                             Component.trace]. fold fresh.
  assert (retryCount fresh = 0) as Hfresh by done.
  assert (retryCount stale = retryCount (Component.state c)) as Hstale by done.
  rewrite Hfresh, Hstale.
  destruct (0 =? retryCount (Component.state c)) eqn:Hcount;
    [apply Z.eqb_eq in Hcount|apply Z.eqb_neq in Hcount]; cbn [negb].
  - split_and!; done.
  - split_and!; try done.
    intros _. cbn [Component.loadEffect Component.state Component.loads
                   Component.trace].
    split_and!; try done.
    + by rewrite <- !app_assoc.
    + by rewrite <- !app_assoc.
    + intros Hpos. unfold effectActions. rewrite Hstale.
      assert ((0 <? retryCount (Component.state c)) = true) as ->
        by (by apply Z.ltb_lt).
      assert ((retryCount (Component.state c) =? 0) = false) as ->
        by (apply Z.eqb_neq; lia).
      change (isAutoSwitching stale) with (isAutoSwitching (Component.state c)).
      by destruct (isAutoSwitching (Component.state c)).
Qed.


End Sessions.

(** ** Navigation *)

(** X16.  The chapter index never becomes negative: from a non-negative
    index any sequence of clicks on the two navigation buttons gives a
    non-negative index, "previous" is a no-op on the first chapter and undoes
    "next" elsewhere; so two chapters that the reader can reach have the same
    key only if they are the same chapter of the same novel. *)
Theorem navigation_stays_in_range :
  (forall cs i, 0 <= i -> 0 <= Navigation.clicks cs i)
  /\ Navigation.prevChapter 0 = 0
  /\ (forall i, 0 <= i -> Navigation.prevChapter (Navigation.nextChapter i) = i)
  /\ (forall t t' cs cs' i i',
        0 <= i -> 0 <= i' ->
        chapterKey t (Navigation.clicks cs i) = chapterKey t' (Navigation.clicks cs' i') ->
        t = t' /\ Navigation.clicks cs i = Navigation.clicks cs' i').
Proof.
  assert (forall cs i, 0 <= i -> 0 <= Navigation.clicks cs i) as Hpos.
  { induction cs as [|c cs IH]; intros i Hi; [done|].
    unfold Navigation.clicks. simpl. apply IH.
    destruct c; unfold Navigation.click, Navigation.nextChapter,
      Navigation.prevChapter; lia. }
  split; [done|]. split; [done|]. split.
  - intros i Hi. unfold Navigation.prevChapter, Navigation.nextChapter. lia.
  - intros t t' cs cs' i i' Hi Hi' H. apply chapterKey_inj in H; auto.
Qed.

(** ** Building a chapter from a response *)

Lemma split_nl_nonempty s : split_nl s <> [].
Proof.
  destruct s as [|c s]; simpl; [done|].
  destruct (c =? 10)%N; [done|]. by destruct (split_nl s).
Qed.

Lemma join_nl_cons l ls :
  join_nl (l :: ls) = l ++ match ls with [] => [] | _ => 10%N :: join_nl ls end.
Proof. destruct ls; simpl; [by rewrite app_nil_r|done]. Qed.

(** Joining the lines gives the text back. *)
Lemma join_split_nl s : join_nl (split_nl s) = s.
Proof.
  induction s as [|c s IH]; [done|]. simpl.
  destruct (c =? 10)%N eqn:Hc.
  - apply N.eqb_eq in Hc as ->. rewrite join_nl_cons. simpl.
    pose proof (split_nl_nonempty s). destruct (split_nl s); [done|].
    by rewrite IH.
  - pose proof (split_nl_nonempty s). destruct (split_nl s) as [|l ls]; [done|].
    rewrite join_nl_cons in *. simpl. by rewrite IH.
Qed.

Lemma split_nl_first_line l body :
  10%N ∉ l -> split_nl (l ++ 10%N :: body) = l :: split_nl body.
Proof.
  induction l as [|c l IH]; intros Hl; simpl; [done|].
  apply not_elem_of_cons in Hl as [Hc Hl].
  assert ((c =? 10)%N = false) as -> by (apply N.eqb_neq; congruence).
  by rewrite IH.
Qed.

(** The body is never longer than the response. *)
Lemma content_length key idx text :
  len (Chapter.content (buildChapter key idx text))
  <= len (match text with Some s => s | None => [] end).
Proof.
  unfold buildChapter. simpl.
  set (s := match text with Some (c :: t) => c :: t | _ => [] end).
  assert (length s = length (match text with Some s => s | None => [] end)) as Hs
    by (subst s; by destruct text as [[|]|]).
  unfold len. rewrite <- Hs. clear Hs.
  pose proof (join_split_nl s) as Hjoin. pose proof (split_nl_nonempty s).
  destruct (split_nl s) as [|l ls]; [done|]. simpl.
  rewrite join_nl_cons in Hjoin. rewrite <- Hjoin.
  rewrite length_app. destruct ls; simpl; lia.
Qed.

Lemma buildChapter_line key idx c l body :
  c <> 10%N -> 10%N ∉ l ->
  buildChapter key idx (Some ((c :: l) ++ 10%N :: body))
  = Chapter.mk key (stripHeading (c :: l)) body (idx + 1).
Proof.
  intros Hc Hl. unfold buildChapter.
  change ((c :: l) ++ 10%N :: body) with (c :: (l ++ 10%N :: body)).
  cbv iota. change (c :: (l ++ 10%N :: body)) with ((c :: l) ++ 10%N :: body).
  rewrite split_nl_first_line by (apply not_elem_of_cons; done).
  cbn [tl]. by rewrite join_split_nl.
Qed.

Lemma stripHeading_hash t :
  stripHeading (35%N :: t) = dropWhile isSpace (dropWhile (N.eqb 35) t).
Proof. done. Qed.

Lemma stripHeading_other c t : c <> 35%N -> stripHeading (c :: t) = c :: t.
Proof.
  intros Hc. unfold stripHeading. destruct c as [|p]; [done|].
  repeat (destruct p as [p|p|]; try done).
Qed.

(** X17.  A response made of a first line, a newline and a body is split
    there: when the first line is not empty and does not begin with a hash
    sign, the chapter has this line as title and everything after the first
    newline, further newlines included, as content; its id is the key and its
    number the index plus one. *)
Theorem response_is_split_at_first_newline key idx c first body :
  c <> 10%N -> c <> 35%N -> 10%N ∉ first ->
  buildChapter key idx (Some ((c :: first) ++ 10%N :: body))
  = Chapter.mk key (c :: first) body (idx + 1).
Proof.
  intros Hc Hh Hfirst. rewrite buildChapter_line by done.
  by rewrite stripHeading_other.
Qed.

(** X18.  Markdown heading marks are removed from the title: a first line
    made of one or more hash signs, any number of spaces and a text that
    begins with neither a hash sign nor white space gives that text as
    title, and the content is still everything after the first newline. *)
Theorem heading_marks_are_removed key idx n m c first body :
  isSpace c = false -> c <> 35%N -> 10%N ∉ first ->
  buildChapter key idx
    (Some ((35%N :: replicate n 35%N ++ replicate m 32%N ++ c :: first)
           ++ 10%N :: body))
  = Chapter.mk key (c :: first) body (idx + 1).
Proof.
  intros Hsp Hh Hfirst.
  assert (c <> 10%N) as Hc by (by intros ->).
  rewrite buildChapter_line; [|done|].
  - rewrite stripHeading_hash. f_equal.
    assert (forall k l, dropWhile (N.eqb 35) (replicate k 35%N ++ l)
                        = dropWhile (N.eqb 35) l) as Hhash.
    { induction k as [|k IH]; intros l; simpl; [done|]. apply IH. }
    assert (forall k l, dropWhile isSpace (replicate k 32%N ++ l)
                        = dropWhile isSpace l) as Hspace.
    { induction k as [|k IH]; intros l; simpl; [done|]. apply IH. }
    assert (forall f x l, f x = false -> dropWhile f (x :: l) = x :: l) as Hstop.
    { intros f x l Hf. simpl. by rewrite Hf. }
    rewrite Hhash. destruct m as [|m].
    + cbn [replicate app]. rewrite Hstop by (apply N.eqb_neq; congruence).
      by rewrite Hstop.
    + cbn [replicate app]. rewrite Hstop by done.
      change (32%N :: replicate m 32%N ++ c :: first)
        with (replicate (S m) 32%N ++ c :: first).
      rewrite Hspace. by rewrite Hstop.
  - rewrite !elem_of_app, elem_of_cons.
    intros [[[=] _]%elem_of_replicate|[[[=] _]%elem_of_replicate|[?|?]]]; done.
Qed.

(** X19.  An empty or missing response text, or one that begins with a
    newline, gives the default title made of the chapter number; and a
    response of fewer than 50 code units always builds a chapter that the
    reader rejects, since the content is never longer than the response. *)
Theorem degenerate_responses key idx :
  buildChapter key idx None
  = Chapter.mk key (js "第 " ++ ofZ (idx + 1) ++ js " 章") [] (idx + 1)
  /\ buildChapter key idx (Some []) = buildChapter key idx None
  /\ (forall body,
        buildChapter key idx (Some (10%N :: body))
        = Chapter.mk key (js "第 " ++ ofZ (idx + 1) ++ js " 章") body (idx + 1))
  /\ (forall text,
        len (match text with Some s => s | None => [] end) < 50 ->
        Reader.contentRejected (buildChapter key idx text) = true).
Proof.
  split; [done|]. split; [done|]. split.
  - intros body. unfold buildChapter. simpl. by rewrite join_split_nl.
  - intros text Hlen. unfold Reader.contentRejected.
    apply orb_true_iff. right. apply Z.ltb_lt.
    pose proof (content_length key idx text). lia.
Qed.

(** ** Listings *)

(** X20.  [searchNovels] and [getRankings] never reject once their request
    has settled: a rejection of the API and a response that does not parse
    to an array both give the empty list.  Otherwise the result has the
    parsed items, in their order, each with the placeholder cover whose
    position is the position of the item modulo five. *)
Theorem listing_result (Item : Type) (parseArray : jsstring -> option (list Item)) :
  (forall e, Listing.listingSettled Item parseArray (Failed e) = [])
  /\ (forall text,
        parseArray (match text with Some (c :: t) => c :: t | _ => js "[]" end)
        = None ->
        Listing.listingSettled Item parseArray (Responded text) = [])
  /\ (forall text data,
        parseArray (match text with Some (c :: t) => c :: t | _ => js "[]" end)
        = Some data ->
        (Listing.listingSettled Item parseArray (Responded text)).*1 = data
        /\ forall i item,
             data !! i = Some item ->
             exists url,
               Listing.listingSettled Item parseArray (Responded text) !! i
               = Some (item, url)
               /\ Listing.PLACEHOLDER_IMGS !! (i mod 5)%nat = Some url).
Proof.
  split; [done|]. split.
  - intros text Hparse. unfold Listing.listingSettled. by rewrite Hparse.
  - intros text data Hparse. unfold Listing.listingSettled. rewrite Hparse.
    split.
    + apply list_eq. intros i.
      rewrite list_lookup_fmap, list_lookup_imap.
      by destruct (data !! i).
    + intros i item Hi. rewrite list_lookup_imap, Hi. simpl.
      unfold Listing.withCover.
      assert (i mod 5 < 5)%nat as Hlt by (apply Nat.mod_upper_bound; lia).
      change (length Listing.PLACEHOLDER_IMGS) with 5%nat.
      destruct (Listing.PLACEHOLDER_IMGS !! (i mod 5)%nat) as [url|] eqn:Hurl.
      * exists url. split; [|done]. f_equal. f_equal.
        by apply nth_lookup_Some.
      * apply lookup_ge_None in Hurl.
        change (length Listing.PLACEHOLDER_IMGS) with 5%nat in Hurl. lia.
Qed.

(** ** The summary of a download *)

(** X21.  [generateEpubSummary] never rejects and never returns the empty
    string: a rejection of the API, a missing text and an empty text each
    give a fixed text, and a text that is not empty is returned as it is. *)
Theorem summary_is_never_empty :
  (forall r, 0 < len (Epub.generateEpubSummarySettled r))
  /\ (forall c t, Epub.generateEpubSummarySettled (Responded (Some (c :: t))) = c :: t)
  /\ Epub.generateEpubSummarySettled (Responded None)
     = Epub.generateEpubSummarySettled (Responded (Some []))
  /\ (forall e, Epub.generateEpubSummarySettled (Failed e) = js "生成失败").
Proof.
  split; [|done].
  intros [[[|c t]|]|e]; unfold len; simpl; try done; lia.
Qed.

(** ** The sources of a novel *)

Lemma insertByLatency_Permutation s l :
  NovelDetail.insertByLatency s l ≡ₚ s :: l.
Proof.
  induction l as [|s' l IH]; simpl; [done|].
  destruct (_ <=? _); [done|]. rewrite IH. apply Permutation_swap.
Qed.

Lemma sortByLatency_Permutation l : NovelDetail.sortByLatency l ≡ₚ l.
Proof.
  induction l as [|s l IH]; simpl; [done|].
  by rewrite insertByLatency_Permutation, IH.
Qed.

Lemma insertByLatency_sorted s l :
  StronglySorted (fun a b => NovelDetail.latencyMs a <= NovelDetail.latencyMs b) l ->
  StronglySorted (fun a b => NovelDetail.latencyMs a <= NovelDetail.latencyMs b)
    (NovelDetail.insertByLatency s l).
Proof.
  induction l as [|s' l IH]; intros Hl; simpl.
  { constructor; [constructor|constructor]. }
  apply StronglySorted_inv in Hl as [Hl Hall].
  destruct (NovelDetail.latencyMs s <=? NovelDetail.latencyMs s') eqn:Hle.
  - apply Z.leb_le in Hle. constructor.
    + by constructor.
    + constructor; [done|]. eapply Forall_impl; [exact Hall|].
      intros x Hx. simpl in *. lia.
  - apply Z.leb_gt in Hle. constructor; [by apply IH|].
    rewrite insertByLatency_Permutation. constructor; [lia|done].
Qed.

Lemma sortByLatency_sorted l :
  StronglySorted (fun a b => NovelDetail.latencyMs a <= NovelDetail.latencyMs b)
    (NovelDetail.sortByLatency l).
Proof.
  induction l as [|s l IH]; simpl; [constructor|].
  by apply insertByLatency_sorted.
Qed.

(** X22.  Whatever latencies are drawn, the sources shown are the four
    sources ordered by increasing latency, the source selected at mount is
    the first of them and no source is faster; [handleRead] then passes the
    name of that source, never the default name. *)
Theorem fastest_source_is_selected r1 r2 r3 r4 :
  exists fastest others,
    NovelDetail.mounted r1 r2 r3 r4
    = (fastest :: others, Some (NovelDetail.id fastest))
    /\ fastest :: others
       ≡ₚ [ NovelDetail.mkSource (js "src1") (js "起点中文网 (官方正版)") (r1 + 10) 100 true;
            NovelDetail.mkSource (js "src2") (js "纵横中文网 (快速镜像)") (r2 + 30) 90 false;
            NovelDetail.mkSource (js "src3") (js "笔趣阁 (极速源)") (r3 + 20) 80 false;
            NovelDetail.mkSource (js "src4") (js "免费小说节点 1") (r4 + 100) 60 false ]
    /\ StronglySorted
         (fun a b => NovelDetail.latencyMs a <= NovelDetail.latencyMs b)
         (fastest :: others)
    /\ Forall (fun s => NovelDetail.latencyMs fastest <= NovelDetail.latencyMs s)
         others
    /\ NovelDetail.getSelectedSource (fastest :: others)
         (Some (NovelDetail.id fastest)) = Some fastest
    /\ NovelDetail.handleRead (fastest :: others) (Some (NovelDetail.id fastest))
       = NovelDetail.name fastest.
Proof.
  unfold NovelDetail.mounted, NovelDetail.mockSources.
  set (l := [_; _; _; _]).
  pose proof (sortByLatency_Permutation l) as Hperm.
  pose proof (sortByLatency_sorted l) as Hsorted.
  destruct (NovelDetail.sortByLatency l) as [|fastest others] eqn:Hsort.
  { apply Permutation_length in Hperm. done. }
  exists fastest, others. split; [done|]. split; [done|]. split; [done|].
  split; [by apply StronglySorted_inv in Hsorted as [_ ?]|].
  unfold NovelDetail.handleRead, NovelDetail.getSelectedSource. simpl.
  by rewrite bool_decide_eq_true_2.
Qed.

(** ** Concrete executions for the further properties *)

Lemma afterSuccess_reachable : reachable Sample.apiKey Sample.afterSuccess.
Proof.
  exists [CallGenerate Sample.novelA 0;
          AdapterSettles 0 (Responded (Some Sample.shortText))].
  by vm_compute.
Qed.

Lemma firstPreloadFailed_reachable :
  reachable Sample.apiKey Demo.firstPreloadFailed.
Proof.
  exists [CallGenerate Sample.novelA 0; CallPreload Sample.novelA 1;
          CallPreload Sample.novelA 2; CallPreload Sample.novelA 3;
          CallPreload Sample.novelA 4; CallPreload Sample.novelA 5;
          AdapterSettles 1 (Failed Sample.quota)].
  by vm_compute.
Qed.

Lemma preloadAnswered_reachable : reachable Sample.apiKey Demo.preloadAnswered.
Proof.
  exists [CallPreload Sample.novelA 0;
          AdapterSettles 0 (Responded (Some Sample.shortText))].
  by vm_compute.
Qed.

(** The chapter cached in [Sample.afterSuccess]. *)
Lemma cached_chapter_provenance_witness :
  reachable Sample.apiKey Sample.afterSuccess
  /\ exists c,
       chapterCache Sample.afterSuccess !! chapterKey Sample.novelA 0 = Some c
       /\ Chapter.id c = chapterKey Sample.novelA 0
       /\ Reader.contentRejected c = true.
Proof.
  split; [apply afterSuccess_reachable|].
  exists (buildChapter (chapterKey Sample.novelA 0) 0 (Some Sample.shortText)).
  split; [by vm_compute|].
  destruct (cached_chapter_provenance Sample.apiKey Sample.afterSuccess
              (chapterKey Sample.novelA 0)
              (buildChapter (chapterKey Sample.novelA 0) 0 (Some Sample.shortText)))
    as (Hid & _ & _ & Hrej); [apply afterSuccess_reachable|by vm_compute|].
  split; [exact Hid|]. rewrite Hrej. by vm_compute.
Defined.

(** The four pending requests of [Sample.readerOpened]. *)
Lemma in_flight_map_is_pending_requests_witness :
  reachable Sample.apiKey Sample.readerOpened
  /\ activeRequests Sample.readerOpened !! chapterKey Sample.novelA 2 = Some 2%nat
  /\ exists rq,
       requests Sample.readerOpened !! 2%nat = Some rq
       /\ req_key rq = chapterKey Sample.novelA 2 /\ req_result rq = None.
Proof.
  split; [apply readerOpened_reachable|]. split; [by vm_compute|].
  destruct (in_flight_map_is_pending_requests Sample.apiKey Sample.readerOpened
              readerOpened_reachable) as [Hmap _].
  apply Hmap. by vm_compute.
Defined.

(** [Sample.readerOpened]: three workers busy, two tasks waiting. *)
Lemma pool_is_work_conserving_witness :
  reachable Sample.apiKey Sample.readerOpened
  /\ preloadQueue Sample.readerOpened <> []
  /\ activeWorkers Sample.readerOpened = 3.
Proof.
  split; [apply readerOpened_reachable|]. split; [by vm_compute|].
  destruct (pool_is_work_conserving Sample.apiKey Sample.readerOpened
              readerOpened_reachable) as (_ & _ & Hfull).
  apply Hfull. by vm_compute.
Defined.

(** In [Demo.firstPreloadFailed] the task of chapter 1 finishes: the preload
    of chapter 4 starts and the preload of chapter 5 stays in the queue. *)
Lemma finished_task_hands_over_witness :
  reachable Sample.apiKey Demo.firstPreloadFailed
  /\ running Demo.firstPreloadFailed !! 0%nat = Some (Owner 1 1)
  /\ observe Demo.firstPreloadFailed (Owner 1 1)
     = Some (Fulfilled (failedChapter 1))
  /\ preloadQueue Demo.firstPreloadFailed
     = [(Sample.novelA, 4); (Sample.novelA, 5)]
  /\ exists st',
       taskSettled Sample.apiKey 0 Demo.firstPreloadFailed = Some st'
       /\ preloadQueue st' = [(Sample.novelA, 5)]
       /\ activeWorkers st' = 3.
Proof.
  split; [apply firstPreloadFailed_reachable|]. split; [by vm_compute|].
  split; [by vm_compute|]. split; [by vm_compute|].
  destruct (finished_task_hands_over Sample.apiKey Demo.firstPreloadFailed 0
              (Owner 1 1) (Fulfilled (failedChapter 1)))
    as (st' & Hst' & Hrest);
    [apply firstPreloadFailed_reachable|by vm_compute|by vm_compute|].
  exists st'. split; [exact Hst'|].
  change (preloadQueue Demo.firstPreloadFailed)
    with [(Sample.novelA, 4); (Sample.novelA, 5)] in Hrest.
  destruct Hrest as (Hq & Hw & _). by split.
Defined.

(** In [Demo.preloadAnswered] the only call has settled. *)
Lemma settled_calls_release_workers_witness :
  reachable Sample.apiKey Demo.preloadAnswered
  /\ running Demo.preloadAnswered !! 0%nat = Some (Owner 0 0)
  /\ is_Some (taskSettled Sample.apiKey 0 Demo.preloadAnswered).
Proof.
  split; [apply preloadAnswered_reachable|]. split; [by vm_compute|].
  apply (settled_calls_release_workers Sample.apiKey Demo.preloadAnswered 0
           (Owner 0 0)); [apply preloadAnswered_reachable| |by vm_compute].
  intros [|p] rq Hp; [|by vm_compute in Hp].
  vm_compute in Hp. injection Hp as <-. eauto.
Defined.

(** Two preloads and a call without an API key. *)
Lemma keyless_module_stays_empty_witness :
  run []
    [CallPreload Sample.novelA 0; CallPreload Sample.novelA 1;
     CallGenerate Sample.novelA 0]
    initial = Some Demo.keyless
  /\ requests Demo.keyless = []
  /\ length (running Demo.keyless) = 2%nat.
Proof.
  split; [by vm_compute|].
  destruct (keyless_module_stays_empty
              [CallPreload Sample.novelA 0; CallPreload Sample.novelA 1;
               CallGenerate Sample.novelA 0] Demo.keyless)
    as (Hr & _); [by vm_compute|].
  split; [exact Hr|by vm_compute].
Defined.

(** The five preloads of the reader after its own call ([Sample.oneCall]). *)
Lemma preload_burst_witness :
  reachable Sample.apiKey Sample.oneCall
  /\ apiKeyMissing Sample.apiKey = false
  /\ NoDup (map (fun task : jsstring * Z => chapterKey task.1 task.2)
              (readerPreloads Sample.novelA 0))
  /\ preloadQueue (preloadAll Sample.apiKey (readerPreloads Sample.novelA 0)
                     Sample.oneCall)
     = [(Sample.novelA, 4); (Sample.novelA, 5)]
  /\ activeWorkers (preloadAll Sample.apiKey (readerPreloads Sample.novelA 0)
                      Sample.oneCall) = 3.
Proof.
  split; [apply oneCall_reachable|]. split; [done|].
  assert (NoDup (map (fun task : jsstring * Z => chapterKey task.1 task.2)
                   (readerPreloads Sample.novelA 0))) as Hdup
    by (apply (bool_decide_unpack _); by vm_compute).
  split; [exact Hdup|].
  destruct (preload_burst Sample.apiKey (readerPreloads Sample.novelA 0)
              Sample.oneCall oneCall_reachable eq_refl Hdup)
    as (Hq & _ & Hw & _).
  - intros task Hin.
    repeat (apply elem_of_cons in Hin as [->|Hin]; [by vm_compute|]).
    by apply elem_of_nil in Hin.
  - split; [exact Hq|exact Hw].
Defined.

(** The reader opened on chapter 0 of the sample novel. *)
Lemma reader_opening_witness :
  apiKeyMissing Sample.apiKey = false
  /\ exists st',
       performAll Sample.apiKey
         (Reader.effectActions Sample.novelA (Reader.mount 0 None)) initial
       = (st', [Owner 0 0])
       /\ length (requests st') = 4%nat
       /\ preloadQueue st' = [(Sample.novelA, 4); (Sample.novelA, 5)].
Proof.
  split; [done|].
  destruct (reader_opening Sample.apiKey Sample.novelA 0 None eq_refl)
    as (st' & Hrun & Hr & Hq & _).
  exists st'. split; [exact Hrun|]. split; [by rewrite Hr|exact Hq].
Defined.

(** Rankings of two and one novels. *)
Lemma home_preloads_witness :
  apiKeyMissing Sample.apiKey = false
  /\ NoDup (take 6 [Sample.novelA; Demo.novelB] ++ take 6 [Demo.novelC])
  /\ preloadQueue
       (preloadAll Sample.apiKey
          (homePreloads [Sample.novelA; Demo.novelB] [Demo.novelC]) initial)
     = [(Demo.novelB, 1); (Demo.novelC, 0); (Demo.novelC, 1)].
Proof.
  split; [done|].
  assert (NoDup (take 6 [Sample.novelA; Demo.novelB] ++ take 6 [Demo.novelC]))
    as Hdup by (apply (bool_decide_unpack _); by vm_compute).
  split; [exact Hdup|].
  destruct (home_preloads Sample.apiKey [Sample.novelA; Demo.novelB]
              [Demo.novelC] eq_refl Hdup) as (_ & _ & Hq & _).
  exact Hq.
Defined.


(** One failure, then a chapter with a body of 60 code units. *)
Lemma success_ends_session_witness :
  Forall (fun r => Reader.attemptFailed r = true) [Sample.rejected]
  /\ Reader.contentRejected Demo.goodChapter = false
  /\ Reader.chapter
       (Reader.session Sample.novelA
          ([Sample.rejected] ++ Fulfilled Demo.goodChapter :: [])
          (Reader.mount 0 None)).1 = Some Demo.goodChapter
  /\ Reader.fetchCount
       (Reader.session Sample.novelA
          ([Sample.rejected] ++ Fulfilled Demo.goodChapter :: [])
          (Reader.mount 0 None)).2 = 2%nat.
Proof.
  assert (Forall (fun r => Reader.attemptFailed r = true) [Sample.rejected])
    as Hfails by (by repeat constructor).
  split; [exact Hfails|]. split; [by vm_compute|].
  destruct (success_ends_session Sample.novelA [Sample.rejected]
              Demo.goodChapter [] 0 None Hfails)
    as (Hchapter & _ & _ & Hcount); [simpl; lia|by vm_compute|].
  split; [exact Hchapter|exact Hcount].
Defined.

(** A success at the first attempt. *)
Lemma loading_after_success_witness :
  Reader.contentRejected Demo.goodChapter = false
  /\ Reader.loading
       (Reader.session Sample.novelA ([] ++ Fulfilled Demo.goodChapter :: [])
          (Reader.mount 0 None)).1 = true.
Proof.
  split; [by vm_compute|].
  rewrite (loading_after_success Sample.novelA [] Demo.goodChapter [] 0 None);
    [done|constructor|simpl; lia|by vm_compute].
Defined.

(** The response of the samples: a title line and a body. *)
Lemma response_is_split_at_first_newline_witness :
  84%N <> 10%N /\ 84%N <> 35%N /\ (10%N ∉ js "itle")
  /\ buildChapter (chapterKey Sample.novelA 0) 0 (Some Sample.shortText)
     = Chapter.mk (chapterKey Sample.novelA 0) (js "Title") (js "0123456789") 1.
Proof.
  split; [done|]. split; [done|].
  assert (10%N ∉ js "itle") as Hno.
  { vm_compute. intros Hin.
    repeat (apply elem_of_cons in Hin as [Hin|Hin]; [done|]).
    by apply elem_of_nil in Hin. }
  split; [exact Hno|].
  exact (response_is_split_at_first_newline (chapterKey Sample.novelA 0) 0
           84%N (js "itle") (js "0123456789") ltac:(done) ltac:(done) Hno).
Defined.

(** A title line written as a level-two heading. *)
Lemma heading_marks_are_removed_witness :
  isSpace 84%N = false /\ 84%N <> 35%N /\ (10%N ∉ js "itle")
  /\ buildChapter (chapterKey Sample.novelA 0) 0
       (Some (js "## Title" ++ [10%N] ++ js "0123456789"))
     = Chapter.mk (chapterKey Sample.novelA 0) (js "Title") (js "0123456789") 1.
Proof.
  split; [done|]. split; [done|].
  assert (10%N ∉ js "itle") as Hno.
  { vm_compute. intros Hin.
    repeat (apply elem_of_cons in Hin as [Hin|Hin]; [done|]).
    by apply elem_of_nil in Hin. }
  split; [exact Hno|].
  exact (heading_marks_are_removed (chapterKey Sample.novelA 0) 0 1 1
           84%N (js "itle") (js "0123456789") eq_refl ltac:(done) Hno).
Defined.

(** From the failure panel of chapter 0 the user clicks on the next chapter:
    two calls of [loadChapter] start for chapter 1, the first with the
    [retryCount] 3 of the failed session; when every call fails, five calls
    have been made for chapter 1 by the time the failure panel is shown
    again. *)
Lemma chapter_change_starts_loads_witness :
  Reader.chapterIndex (Component.state Tour.failed) = 0
  /\ Navigation.click Navigation.Next 0 = 1
  /\ Reader.retryCount (Component.state Tour.failed) = 3
  /\ Component.loads Tour.failed = []
  /\ Component.step Sample.novelA None (Component.Clicks Navigation.Next)
       Tour.failed = Some Tour.nextAfterFailure
  /\ map Reader.retryCount (Component.loads Tour.nextAfterFailure) = [3; 0]
  /\ Component.trace Tour.nextAfterFailure
     = Component.trace Tour.failed
       ++ [Reader.ScrollToTop; Reader.Delay 1500; Reader.Fetch Sample.novelA 1;
           Reader.ScrollToTop; Reader.Fetch Sample.novelA 1;
           Reader.PreloadNext Sample.novelA 2; Reader.PreloadNext Sample.novelA 3;
           Reader.PreloadNext Sample.novelA 4; Reader.PreloadNext Sample.novelA 5;
           Reader.PreloadNext Sample.novelA 6]
  /\ exists c,
       Component.run Sample.novelA None
         (replicate 5 (Component.Settles 0 Sample.rejected)) Tour.nextAfterFailure
       = Some c
       /\ Component.loads c = []
       /\ Reader.finalFailure (Component.state c)
       /\ Reader.fetchCount
            (drop (length (Component.trace Tour.failed)) (Component.trace c))
          = 5%nat.
Proof.
  split; [reflexivity|]. split; [reflexivity|]. split; [reflexivity|].
  split; [reflexivity|].
  destruct (chapter_change_starts_loads Sample.novelA None Tour.failed
              Navigation.Next)
    as (c' & Hstep & _ & _ & _ & _ & _ & _ & _ & Hstale); [by vm_compute|].
  destruct Hstale as (Hloads & Htrace & _ & _); [by vm_compute|].
  assert (c' = Tour.nextAfterFailure) as Hc'
    by (unfold Tour.nextAfterFailure; by rewrite Hstep).
  rewrite Hc' in Hstep, Hloads, Htrace.
  split; [exact Hstep|].
  split; [rewrite Hloads; reflexivity|].
  split; [rewrite Htrace; reflexivity|].
  eexists. split; [by vm_compute|]. split; [reflexivity|].
  split; [by vm_compute|reflexivity].
Defined.
